(** * Bouncing ball in a spinning hexagon: the physics kernel

    A shallow embedding of [bouncing_ball_hexagon.py].  Python floats are
    read as real numbers (the data model of the specification: a Vec2 is an
    ordered pair of reals), tuples and two-element lists as pairs, the
    module-level mutable globals as an explicit state record, and the two
    exceptions the arithmetic and the indexing could raise as an error
    result. *)

From Stdlib Require Import Reals Lra Lia List Arith ZArith.
Import ListNotations.

Local Open Scope R_scope.

(** ** Errors *)

Inductive exn : Type :=
| ZeroDivisionError
| IndexError.

Inductive result (A : Type) : Type :=
| Ok (a : A)
| Raise (e : exn).

Arguments Ok {A} a.
Arguments Raise {A} e.

Definition bind {A B : Type} (c : result A) (k : A -> result B) : result B :=
  match c with
  | Ok a => k a
  | Raise e => Raise e
  end.

Notation "x <- c ;; k" := (bind c (fun x => k))
  (at level 61, c at next level, right associativity).

(** ** Python primitives over the reals *)

Definition Vec2 : Type := (R * R)%type.

(** [x / y] on floats raises [ZeroDivisionError] when [y == 0]. *)
Definition py_div (x y : R) : result R :=
  if Req_dec_T y 0 then Raise ZeroDivisionError else Ok (x / y).

(** [min(x, y)] returns [y] only when [y < x]; [max(x, y)] returns [y] only
    when [y > x]. *)
Definition py_min (x y : R) : R := if Rlt_dec y x then y else x.
Definition py_max (x y : R) : R := if Rgt_dec y x then y else x.

(** [math.hypot] *)
Definition hypot (x y : R) : R := sqrt (x * x + y * y).

(** [l[i]] *)
Definition index {A : Type} (l : list A) (i : nat) : result A :=
  match nth_error l i with
  | Some a => Ok a
  | None => Raise IndexError
  end.

(** ** Constants and state *)

(** [hex_sides = 6] *)
Definition hex_sides : nat := 6.

(** The remaining module-level constants.  They are never assigned after
    initialisation; the record lets statements range over them. *)
Record Config : Type := {
  hex_center : Vec2;
  hex_radius : R;
  angular_speed : R;
  ball_radius : R;
  gravity : R;
  restitution : R;
  wall_friction : R;
  dt : R
}.

(** The values the script is shipped with ([WIDTH, HEIGHT = 800, 600],
    [FPS = 60]). *)
Definition default_config : Config := {|
  hex_center := (400, 300);
  hex_radius := 250;
  angular_speed := 5 / 10;
  ball_radius := 15;
  gravity := 400;
  restitution := 9 / 10;
  wall_friction := 98 / 100;
  dt := 1 / 60
|}.

(** The disc: [ball_pos], [ball_vel]. *)
Record Ball : Type := {
  ball_pos : Vec2;
  ball_vel : Vec2
}.

(** The globals [main] mutates. *)
Record State : Type := {
  hex_angle : R;
  ball : Ball
}.

Definition initial_state : State := {|
  hex_angle := 0;
  ball := {| ball_pos := (400, 200); ball_vel := (150, 0) |}
|}.

(** ** Geometry provider *)

Definition hexagon_vertex (center : Vec2) (radius base_angle : R) (i : nat)
  : Vec2 :=
  let angle := base_angle + INR i * 2 * PI / INR hex_sides in
  let x := fst center + radius * cos angle in
  let y := snd center + radius * sin angle in
  (x, y).

(** [get_hexagon_vertices]: the loop over [range(hex_sides)] appending one
    vertex per index. *)
Definition get_hexagon_vertices (center : Vec2) (radius base_angle : R)
  : list Vec2 :=
  map (hexagon_vertex center radius base_angle) (seq 0 hex_sides).

(** ** Segment projector *)

Definition closest_point_on_segment (a b p : Vec2) : result Vec2 :=
  let '(ax, ay) := a in
  let '(bx, by_) := b in
  let '(px, py) := p in
  let abx := bx - ax in
  let aby := by_ - ay in
  let ab_len_sq := abx * abx + aby * aby in
  if Req_dec_T ab_len_sq 0 then Ok a
  else
    t <- py_div ((px - ax) * abx + (py - ay) * aby) ab_len_sq ;;
    let t := py_max 0 (py_min 1 t) in
    let closest := (ax + t * abx, ay + t * aby) in
    Ok closest.

(** ** Collision resolver *)

Definition reflect_velocity (cfg : Config) (ball_v wall_n v_rel : Vec2)
  : Vec2 :=
  let v_dot_n := fst v_rel * fst wall_n + snd v_rel * snd wall_n in
  if Rge_dec v_dot_n 0 then ball_v
  else
    let factor := (1 + restitution cfg) * v_dot_n in
    let v_rel_new :=
      (fst v_rel - factor * fst wall_n, snd v_rel - factor * snd wall_n) in
    let normal_component :=
      (fst v_rel_new * fst wall_n, snd v_rel_new * snd wall_n) in
    let tangential_component :=
      (fst v_rel_new - fst normal_component,
       snd v_rel_new - snd normal_component) in
    let tangential_component :=
      (fst tangential_component * wall_friction cfg,
       snd tangential_component * wall_friction cfg) in
    let v_rel_new :=
      (fst normal_component + fst tangential_component,
       snd normal_component + snd tangential_component) in
    v_rel_new.

Definition vector_length (v : Vec2) : R :=
  sqrt (fst v * fst v + snd v * snd v).

(** ** Collision detector: the body of the loop over the walls in [main] *)

(** What the detection part of one loop iteration hands to the response
    part: [closest], [dist], [wall_n] and [wall_vel]. *)
Record Contact : Type := {
  contact_point : Vec2;
  contact_dist : R;
  contact_normal : Vec2;
  contact_wall_vel : Vec2
}.

(** The normal, from wall to ball.  [Ok None] is the [continue] of the
    zero-length wall. *)
Definition wall_normal (a b : Vec2) (dx dy dist_ : R)
  : result (option Vec2) :=
  if Req_dec_T dist_ 0 then
    let wall_dx := fst b - fst a in
    let wall_dy := snd b - snd a in
    let wall_length := hypot wall_dx wall_dy in
    if Req_dec_T wall_length 0 then Ok None
    else
      nx <- py_div (- wall_dy) wall_length ;;
      ny <- py_div wall_dx wall_length ;;
      Ok (Some (nx, ny))
  else
    nx <- py_div dx dist_ ;;
    ny <- py_div dy dist_ ;;
    Ok (Some (nx, ny)).

(** Velocity of the wall at the collision point. *)
Definition wall_velocity (cfg : Config) (closest : Vec2) : Vec2 :=
  let '(cp_x, cp_y) := closest in
  let rel_x := cp_x - fst (hex_center cfg) in
  let rel_y := cp_y - snd (hex_center cfg) in
  (- angular_speed cfg * rel_y, angular_speed cfg * rel_x).

(** Lines 125-151: [Ok None] when the wall is not touched or is skipped. *)
Definition detect_contact (cfg : Config) (a b pos : Vec2)
  : result (option Contact) :=
  closest <- closest_point_on_segment a b pos ;;
  let dx := fst pos - fst closest in
  let dy := snd pos - snd closest in
  let dist_ := hypot dx dy in
  if Rlt_dec dist_ (ball_radius cfg) then
    n <- wall_normal a b dx dy dist_ ;;
    match n with
    | None => Ok None
    | Some wall_n =>
        Ok (Some {| contact_point := closest;
                    contact_dist := dist_;
                    contact_normal := wall_n;
                    contact_wall_vel := wall_velocity cfg closest |})
    end
  else Ok None.

(** Lines 153-165: the new velocity, then the push out of the wall. *)
Definition resolve_contact (cfg : Config) (bl : Ball) (c : Contact) : Ball :=
  let wall_n := contact_normal c in
  let wall_vel := contact_wall_vel c in
  let v := ball_vel bl in
  let v_rel := (fst v - fst wall_vel, snd v - snd wall_vel) in
  let v_rel_new := reflect_velocity cfg v wall_n v_rel in
  let v' := (fst v_rel_new + fst wall_vel, snd v_rel_new + snd wall_vel) in
  let overlap := ball_radius cfg - contact_dist c in
  let pos := ball_pos bl in
  {| ball_pos := (fst pos + fst wall_n * overlap,
                  snd pos + snd wall_n * overlap);
     ball_vel := v' |}.

(** One wall [a]-[b]. *)
Definition collide_wall (cfg : Config) (a b : Vec2) (bl : Ball)
  : result Ball :=
  c <- detect_contact cfg a b (ball_pos bl) ;;
  match c with
  | None => Ok bl
  | Some c => Ok (resolve_contact cfg bl c)
  end.

(** One iteration of [for i in range(len(vertices))]. *)
Definition collide_edge (cfg : Config) (vertices : list Vec2) (i : nat)
  (bl : Ball) : result Ball :=
  a <- index vertices i ;;
  b <- index vertices ((i + 1) mod length vertices) ;;
  collide_wall cfg a b bl.

(** A [for] loop over a list of indices, the disc threaded through. *)
Fixpoint for_each (body : nat -> Ball -> result Ball) (idxs : list nat)
  (bl : Ball) : result Ball :=
  match idxs with
  | [] => Ok bl
  | i :: rest => bl' <- body i bl ;; for_each body rest bl'
  end.

Definition collide_all (cfg : Config) (vertices : list Vec2) (bl : Ball)
  : result Ball :=
  for_each (collide_edge cfg vertices) (seq 0 (length vertices)) bl.

(** ** Simulation step: one pass of the [while running] body, without the
    event polling and the drawing *)

Definition tick (cfg : Config) (st : State) : result State :=
  let hex_angle' := hex_angle st + angular_speed cfg * dt cfg in
  let vertices :=
    get_hexagon_vertices (hex_center cfg) (hex_radius cfg) hex_angle' in
  let vel := ball_vel (ball st) in
  let vel := (fst vel, snd vel + gravity cfg * dt cfg) in
  let pos := ball_pos (ball st) in
  let pos := (fst pos + fst vel * dt cfg, snd pos) in
  let pos := (fst pos, snd pos + snd vel * dt cfg) in
  bl <- collide_all cfg vertices {| ball_pos := pos; ball_vel := vel |} ;;
  Ok {| hex_angle := hex_angle'; ball := bl |}.

(** ** Definitions the statements are compared against *)

Definition vadd (u v : Vec2) : Vec2 := (fst u + fst v, snd u + snd v).
Definition vsub (u v : Vec2) : Vec2 := (fst u - fst v, snd u - snd v).
Definition vscale (k : R) (v : Vec2) : Vec2 := (k * fst v, k * snd v).
Definition vdot (u v : Vec2) : R := fst u * fst v + snd u * snd v.
Definition vnorm (v : Vec2) : R := hypot (fst v) (snd v).

(** Rotation of a vector about the origin by the angle [phi]. *)
Definition rotate (phi : R) (v : Vec2) : Vec2 :=
  (cos phi * fst v - sin phi * snd v, sin phi * fst v + cos phi * snd v).

Definition clamp (lo hi t : R) : R := Rmax lo (Rmin hi t).

(** The parameter of the orthogonal projection of [p] on the line [a b]. *)
Definition projection_parameter (a b p : Vec2) : R :=
  vdot (vsub p a) (vsub b a) / vdot (vsub b a) (vsub b a).

Definition Vec2_eq_dec (u v : Vec2) : {u = v} + {u <> v}.
Proof.
  destruct u as [ux uy], v as [vx vy].
  destruct (Req_dec_T ux vx) as [Hx | Hx].
  - destruct (Req_dec_T uy vy) as [Hy | Hy].
    + left. now subst.
    + right. intros H. apply Hy. now inversion H.
  - right. intros H. apply Hx. now inversion H.
Defined.

(** The decomposition the resolver is documented to apply to the reflected
    relative velocity: the normal component [(v . n) n], and the tangential
    remainder scaled by the friction factor. *)
Definition friction_decomposition (cfg : Config) (v_rel_new n : Vec2) : Vec2 :=
  let normal := vscale (vdot v_rel_new n) n in
  let tangential := vsub v_rel_new normal in
  vadd normal (vscale (wall_friction cfg) tangential).

(** The restitution-scaled reflection of the relative velocity. *)
Definition restitution_reflection (cfg : Config) (v_rel n : Vec2) : Vec2 :=
  vsub v_rel (vscale ((1 + restitution cfg) * vdot v_rel n) n).


(** ** Concrete inputs used in the evaluations below *)

(** The shipped constants with the hexagon at rest. *)
Definition stationary_config : Config := {|
  hex_center := hex_center default_config;
  hex_radius := hex_radius default_config;
  angular_speed := 0;
  ball_radius := ball_radius default_config;
  gravity := gravity default_config;
  restitution := restitution default_config;
  wall_friction := wall_friction default_config;
  dt := dt default_config
|}.

(** A disc 10 above the middle of a flat floor at height 500 (the y axis of
    the screen points down), falling straight down at 100. *)
Definition floor_a : Vec2 := (525, 500).
Definition floor_b : Vec2 := (275, 500).
Definition falling_ball : Ball :=
  {| ball_pos := (400, 490); ball_vel := (0, 100) |}.

(** The shipped hexagon at angle 0, and a disc 10 above the middle of its
    bottom wall (vertices 1 and 2), moving straight up at 50. *)
Definition hexagon_at_rest_angle : list Vec2 :=
  get_hexagon_vertices (hex_center default_config)
    (hex_radius default_config) 0.
Definition rising_ball : Ball :=
  {| ball_pos := (400, 290 + 125 * sqrt 3); ball_vel := (0, -50) |}.

(** ** The order of one tick, spelled out

    What one tick is said to do, written without the loop and without the
    functions the loop body was split into above: the angle first, the
    vertices from the new angle, gravity into the velocity, the new
    velocity into the position, then the six walls one after the other,
    each detected contact corrected before the next wall is looked at. *)

Definition vdiv (v : Vec2) (k : R) : Vec2 := (fst v / k, snd v / k).

(** The direction [v] turned by a quarter turn. *)
Definition perp (v : Vec2) : Vec2 := (- snd v, fst v).

(** Vertex [i] of the hexagon: at angle [angle + i (2 pi / 6)] and distance
    [radius] from [center]. *)
Definition vertex_at (center : Vec2) (radius angle : R) (i : nat) : Vec2 :=
  vadd center
    (vscale radius (cos (angle + INR i * (2 * PI / 6)),
                    sin (angle + INR i * (2 * PI / 6)))).

(** The point of the wall [a]-[b] closest to [p]. *)
Definition closest_on_wall (a b p : Vec2) : Vec2 :=
  if Vec2_eq_dec a b then a
  else vadd a (vscale (clamp 0 1 (projection_parameter a b p)) (vsub b a)).

(** The disc after the two corrections of a contact at [closest], at
    distance [dist], with normal [n].  Velocity: the wall velocity [w] at
    the contact point is taken off, the resolver [reflect_velocity] is
    applied, [w] is added back.  Position: pushed along [n] by the
    penetration depth [ball_radius - dist]. *)
Definition corrected (cfg : Config) (bl : Ball) (closest : Vec2) (dist_ : R)
  (n : Vec2) : Ball :=
  let r := vsub closest (hex_center cfg) in
  let w := (- angular_speed cfg * snd r, angular_speed cfg * fst r) in
  {| ball_pos := vadd (ball_pos bl) (vscale (ball_radius cfg - dist_) n);
     ball_vel :=
       vadd (reflect_velocity cfg (ball_vel bl) n (vsub (ball_vel bl) w)) w |}.

(** One wall: no contact at a distance of [ball_radius] or more; below it
    the normal is [(pos - closest) / dist], or at distance 0 the normalised
    perpendicular of the wall, and a wall of length 0 at distance 0 is
    skipped. *)
Definition wall_in_order (cfg : Config) (a b : Vec2) (bl : Ball) : Ball :=
  let pos := ball_pos bl in
  let closest := closest_on_wall a b pos in
  let dist_ := vnorm (vsub pos closest) in
  if Rlt_dec dist_ (ball_radius cfg) then
    if Req_dec_T dist_ 0 then
      if Vec2_eq_dec a b then bl
      else corrected cfg bl closest dist_
             (vdiv (perp (vsub b a)) (vnorm (vsub b a)))
    else corrected cfg bl closest dist_ (vdiv (vsub pos closest) dist_)
  else bl.

Definition tick_in_order (cfg : Config) (st : State) : result State :=
  let angle1 := hex_angle st + angular_speed cfg * dt cfg in
  let vertex := vertex_at (hex_center cfg) (hex_radius cfg) angle1 in
  let v0 := ball_vel (ball st) in
  let p0 := ball_pos (ball st) in
  let v1 := (fst v0, snd v0 + gravity cfg * dt cfg) in
  let p1 := (fst p0 + fst v1 * dt cfg, snd p0 + snd v1 * dt cfg) in
  let b0 := {| ball_pos := p1; ball_vel := v1 |} in
  let b1 := wall_in_order cfg (vertex 0%nat) (vertex 1%nat) b0 in
  let b2 := wall_in_order cfg (vertex 1%nat) (vertex 2%nat) b1 in
  let b3 := wall_in_order cfg (vertex 2%nat) (vertex 3%nat) b2 in
  let b4 := wall_in_order cfg (vertex 3%nat) (vertex 4%nat) b3 in
  let b5 := wall_in_order cfg (vertex 4%nat) (vertex 5%nat) b4 in
  let b6 := wall_in_order cfg (vertex 5%nat) (vertex 0%nat) b5 in
  Ok {| hex_angle := angle1; ball := b6 |}.

(** Wall [i] of [vertices] is not closer to [pos] than the radius of the
    disc. *)
Definition edge_out_of_reach (cfg : Config) (vertices : list Vec2)
  (pos : Vec2) (i : nat) : Prop :=
  forall a b closest : Vec2,
    index vertices i = Ok a ->
    index vertices ((i + 1) mod length vertices) = Ok b ->
    closest_point_on_segment a b pos = Ok closest ->
    ~ hypot (fst pos - fst closest) (snd pos - snd closest) < ball_radius cfg.

(** No wall at all is. *)
Definition out_of_reach (cfg : Config) (vertices : list Vec2) (pos : Vec2)
  : Prop :=
  forall i : nat,
    (i < length vertices)%nat -> edge_out_of_reach cfg vertices pos i.

(** A run of the loop over the walls [idxs] in which no wall is found within
    reach at the moment it is checked, that is, from the position the disc
    has when its iteration starts. *)
Fixpoint quiet_run (cfg : Config) (vertices : list Vec2) (idxs : list nat)
  (bl : Ball) : Prop :=
  match idxs with
  | [] => True
  | i :: rest =>
      edge_out_of_reach cfg vertices (ball_pos bl) i /\
      forall bl' : Ball,
        collide_edge cfg vertices i bl = Ok bl' ->
        quiet_run cfg vertices rest bl'
  end.

(** A disc at rest at the centre of the shipped hexagon. *)
Definition centred_ball : Ball :=
  {| ball_pos := (400, 300); ball_vel := (0, 0) |}.

(** ** The main loop: events, ticks, frames *)

(** An event as far as [main] looks at it: whether [event.type] is
    [pygame.QUIT]. *)
Inductive event : Type :=
| QUIT
| OtherEvent.

Definition is_quit (e : event) : bool :=
  match e with
  | QUIT => true
  | OtherEvent => false
  end.

(** [for event in pygame.event.get(): if event.type == pygame.QUIT:
    running = False] *)
Fixpoint process_events (events : list event) (running : bool) : bool :=
  match events with
  | [] => running
  | e :: rest => process_events rest (if is_quit e then false else running)
  end.

(** [int(x)] on a float: rounding towards zero. *)
Definition py_int (x : R) : Z := if Rle_dec 0 x then Zfloor x else Zceil x.

(** What one pass hands to the display: the polygon, and the centre and the
    radius of the circle. *)
Record Frame : Type := {
  frame_polygon : list Vec2;
  frame_circle : Z * Z;
  frame_radius : R
}.

(** The drawing calls at the end of a pass.  [vertices] was computed in the
    same pass from the angle the pass has just stored in [hex_angle]. *)
Definition draw (cfg : Config) (st : State) : Frame :=
  let vertices :=
    get_hexagon_vertices (hex_center cfg) (hex_radius cfg) (hex_angle st) in
  let pos := ball_pos (ball st) in
  {| frame_polygon := vertices;
     frame_circle := (py_int (fst pos), py_int (snd pos));
     frame_radius := ball_radius cfg |}.

(** [while running]: each pass reads the events the window system has
    queued, steps the physics, draws, and tests [running] again.  The
    queues of the successive passes are the input; when they run out the
    loop is left where it stands.  The result is the last state and the
    frames drawn, oldest first. *)
Fixpoint main_loop (cfg : Config) (queues : list (list event)) (st : State)
  : result (State * list Frame) :=
  match queues with
  | [] => Ok (st, [])
  | events :: rest =>
      let running := process_events events true in
      st' <- tick cfg st ;;
      let frame := draw cfg st' in
      if running then
        r <- main_loop cfg rest st' ;;
        Ok (fst r, frame :: snd r)
      else Ok (st', [frame])
  end.

(** [n] passes of the physics alone. *)
Fixpoint ticks (cfg : Config) (n : nat) (st : State) : result State :=
  match n with
  | O => Ok st
  | S n' => st' <- tick cfg st ;; ticks cfg n' st'
  end.

(** A disc whose centre lies on the floor wall. *)
Definition grounded_ball : Ball :=
  {| ball_pos := (400, 500); ball_vel := (0, 100) |}.

(** A disc 10 above the floor wall, moving straight up at 100. *)
Definition leaving_ball : Ball :=
  {| ball_pos := (400, 490); ball_vel := (0, -100) |}.

(** The shipped constants with the hexagon at rest and no loss along the
    wall. *)
Definition frictionless_config : Config := {|
  hex_center := hex_center default_config;
  hex_radius := hex_radius default_config;
  angular_speed := 0;
  ball_radius := ball_radius default_config;
  gravity := gravity default_config;
  restitution := restitution default_config;
  wall_friction := 1;
  dt := dt default_config
|}.

(** The shipped constants with a disc of radius 0. *)
Definition point_config : Config := {|
  hex_center := hex_center default_config;
  hex_radius := hex_radius default_config;
  angular_speed := angular_speed default_config;
  ball_radius := 0;
  gravity := gravity default_config;
  restitution := restitution default_config;
  wall_friction := wall_friction default_config;
  dt := dt default_config
|}.

(** A disc at the centre of the shipped hexagon whose velocity gravity
    cancels in the next tick. *)
Definition hovering_state : State := {|
  hex_angle := 0;
  ball := {| ball_pos := (400, 300); ball_vel := (0, - (400 * (1 / 60))) |}
|}.
(** * Basic facts *)

Lemma py_div_nonzero (x y : R) : y <> 0 -> py_div x y = Ok (x / y).
Proof.
  intros Hy. unfold py_div.
  destruct (Req_dec_T y 0) as [E | _]; [contradiction | reflexivity].
Qed.

Lemma py_clamp (t : R) : py_max 0 (py_min 1 t) = clamp 0 1 t.
Proof.
  unfold py_max, py_min, clamp, Rmax, Rmin.
  destruct (Rlt_dec t 1), (Rle_dec 1 t); try lra;
    match goal with
    | |- context [Rgt_dec ?x 0] => destruct (Rgt_dec x 0)
    end;
    match goal with
    | |- context [Rle_dec 0 ?x] => destruct (Rle_dec 0 x)
    end; lra.
Qed.

Lemma sum_squares_zero (x y : R) : x * x + y * y = 0 -> x = 0 /\ y = 0.
Proof. intros H. split; nra. Qed.

Lemma hypot_nonneg (x y : R) : 0 <= hypot x y.
Proof. apply sqrt_pos. Qed.

Lemma hypot_square (x y : R) : hypot x y * hypot x y = x * x + y * y.
Proof. unfold hypot. apply sqrt_sqrt. nra. Qed.

Lemma hypot_zero (x y : R) : hypot x y = 0 -> x = 0 /\ y = 0.
Proof.
  intros H. apply sum_squares_zero.
  rewrite <- hypot_square, H. lra.
Qed.

Lemma hypot_of_square (x y r : R) :
  0 <= r -> x * x + y * y = r * r -> hypot x y = r.
Proof.
  intros Hr H. unfold hypot. rewrite H. now apply sqrt_square.
Qed.

Lemma hypot_lower (x y r : R) : r * r <= x * x + y * y -> r <= hypot x y.
Proof.
  intros H. destruct (Rle_dec r 0) as [Hn | Hp].
  - pose proof (hypot_nonneg x y). lra.
  - pose proof (hypot_nonneg x y) as H0.
    pose proof (hypot_square x y) as H1.
    nra.
Qed.

Lemma segment_degenerate (a b : Vec2) :
  vdot (vsub b a) (vsub b a) = 0 <-> a = b.
Proof.
  destruct a as [ax ay], b as [bx by_]. unfold vdot, vsub. simpl. split.
  - intros H. apply sum_squares_zero in H. destruct H. f_equal; lra.
  - intros H. inversion H. subst. lra.
Qed.

(** The projector never raises, and is the clamped projection. *)
Lemma closest_point_value (a b p : Vec2) :
  closest_point_on_segment a b p =
  Ok (if Vec2_eq_dec a b then a
      else vadd a (vscale (clamp 0 1 (projection_parameter a b p)) (vsub b a))).
Proof.
  pose proof (segment_degenerate a b) as Hd.
  destruct (Vec2_eq_dec a b) as [E | N];
    destruct a as [ax ay], b as [bx by_], p as [px py];
    unfold closest_point_on_segment;
    unfold vdot, vsub in Hd; simpl in Hd;
    match goal with
    | |- context [Req_dec_T ?z 0] => destruct (Req_dec_T z 0) as [Z | NZ]
    end.
  - reflexivity.
  - exfalso. apply NZ. now apply Hd.
  - exfalso. apply N. now apply Hd.
  - rewrite (py_div_nonzero _ _ NZ). simpl bind.
    rewrite py_clamp. reflexivity.
Qed.

Lemma closest_point_total (a b p : Vec2) :
  exists c, closest_point_on_segment a b p = Ok c.
Proof. rewrite closest_point_value. eauto. Qed.

(** * The segment projector *)

Ltac real_cases :=
  repeat match goal with
  | |- context [Rle_dec ?x ?y] => destruct (Rle_dec x y)
  | |- context [Rlt_dec ?x ?y] => destruct (Rlt_dec x y)
  | |- context [Rge_dec ?x ?y] => destruct (Rge_dec x y)
  | |- context [Rgt_dec ?x ?y] => destruct (Rgt_dec x y)
  | |- context [Req_dec_T ?x ?y] => destruct (Req_dec_T x y)
  end.

Lemma clamp_inside (t : R) : 0 <= t <= 1 -> clamp 0 1 t = t.
Proof.
  intros H. unfold clamp, Rmin. destruct (Rle_dec 1 t);
    unfold Rmax; real_cases; lra.
Qed.

Lemma clamp_below (t : R) : t <= 0 -> clamp 0 1 t = 0.
Proof.
  intros H. unfold clamp, Rmin. destruct (Rle_dec 1 t);
    unfold Rmax; real_cases; lra.
Qed.

Lemma clamp_range (t : R) : 0 <= clamp 0 1 t <= 1.
Proof.
  unfold clamp, Rmin. destruct (Rle_dec 1 t);
    unfold Rmax; real_cases; lra.
Qed.

Lemma pair_eq (x y x' y' : R) : x = x' -> y = y' -> (x, y) = (x', y').
Proof. intros -> ->. reflexivity. Qed.

(** C6: [closest_point_on_segment a b p] is [a] when [a = b] (no division is
    attempted), and otherwise [a + clamp(t, 0, 1) (b - a)] with [t] the
    projection parameter of [p] on the line through [a] and [b]; on the
    segment (0,0)-(10,0) it gives (5,0) for (5,5) and (0,0) for (-3,0), and
    on the segment (2,2)-(2,2) it gives (2,2) for every point. *)
Theorem closest_point_clamped_projection :
  (forall a b p : Vec2,
      closest_point_on_segment a b p =
      Ok (if Vec2_eq_dec a b then a
          else vadd a (vscale (clamp 0 1 (projection_parameter a b p))
                              (vsub b a)))) /\
  closest_point_on_segment (0, 0) (10, 0) (5, 5) = Ok (5, 0) /\
  closest_point_on_segment (0, 0) (10, 0) (-3, 0) = Ok (0, 0) /\
  (forall p : Vec2, closest_point_on_segment (2, 2) (2, 2) p = Ok (2, 2)).
Proof.
  split; [exact closest_point_value | ].
  repeat split.
  - rewrite closest_point_value.
    destruct (Vec2_eq_dec (0, 0) (10, 0)) as [E | _].
    + inversion E; lra.
    + f_equal. unfold vadd, vscale, vsub, projection_parameter, vdot.
      simpl.
      rewrite clamp_inside by lra. apply pair_eq; lra.
  - rewrite closest_point_value.
    destruct (Vec2_eq_dec (0, 0) (10, 0)) as [E | _].
    + inversion E; lra.
    + f_equal. unfold vadd, vscale, vsub, projection_parameter, vdot.
      simpl.
      rewrite clamp_below by lra. apply pair_eq; lra.
  - intros p. rewrite closest_point_value.
    destruct (Vec2_eq_dec (2, 2) (2, 2)) as [_ | N];
      [reflexivity | now contradiction N].
Qed.

(** * The collision resolver *)

Lemma reflect_velocity_separating (cfg : Config) (ball_v wall_n v_rel : Vec2) :
  vdot v_rel wall_n >= 0 -> reflect_velocity cfg ball_v wall_n v_rel = ball_v.
Proof.
  intros H. unfold reflect_velocity. unfold vdot in H.
  destruct (Rge_dec _ 0); [reflexivity | contradiction].
Qed.

(** What the code computes for an approaching contact: each coordinate of the
    reflected relative velocity is multiplied by the same coordinate of the
    normal, and that pair is used as the normal part. *)
Lemma reflect_velocity_approaching (cfg : Config) (ball_v wall_n v_rel : Vec2) :
  vdot v_rel wall_n < 0 ->
  reflect_velocity cfg ball_v wall_n v_rel =
  let r := restitution_reflection cfg v_rel wall_n in
  let f := wall_friction cfg in
  (fst r * fst wall_n + (fst r - fst r * fst wall_n) * f,
   snd r * snd wall_n + (snd r - snd r * snd wall_n) * f).
Proof.
  intros H. unfold reflect_velocity. unfold vdot in H.
  destruct (Rge_dec _ 0) as [G | _]; [lra | ].
  unfold restitution_reflection, vsub, vscale, vdot. simpl. reflexivity.
Qed.

(** C2, evaluated on the code: with the shipped constants, normal (0,-1) and
    relative velocity (30,10), [reflect_velocity] returns (29.4, -8.64); the
    normal component [(v . n) n] plus the friction-scaled tangential remainder
    of the reflected velocity is (29.4, -9). *)
Theorem reflect_velocity_normal_part_componentwise :
  reflect_velocity default_config (30, 10) (0, -1) (30, 10)
    = (147 / 5, - (216 / 25)) /\
  friction_decomposition default_config
    (restitution_reflection default_config (30, 10) (0, -1)) (0, -1)
    = (147 / 5, -9) /\
  reflect_velocity default_config (30, 10) (0, -1) (30, 10) <>
  friction_decomposition default_config
    (restitution_reflection default_config (30, 10) (0, -1)) (0, -1).
Proof.
  assert (Hc : reflect_velocity default_config (30, 10) (0, -1) (30, 10)
               = (147 / 5, - (216 / 25))).
  { rewrite reflect_velocity_approaching by (unfold vdot; simpl; lra).
    unfold restitution_reflection, vsub, vscale, vdot. simpl.
    apply pair_eq; lra. }
  assert (Hs : friction_decomposition default_config
                 (restitution_reflection default_config (30, 10) (0, -1))
                 (0, -1) = (147 / 5, -9)).
  { unfold friction_decomposition, restitution_reflection, vadd, vsub,
      vscale, vdot. simpl. apply pair_eq; lra. }
  repeat split; trivial.
  rewrite Hc, Hs. intros E. inversion E. lra.
Qed.

(** * The collision detector *)

Lemma closest_point_at (a b p c : Vec2) (t : R) :
  a <> b ->
  projection_parameter a b p = t ->
  0 <= t <= 1 ->
  c = vadd a (vscale t (vsub b a)) ->
  closest_point_on_segment a b p = Ok c.
Proof.
  intros N Ht Hr ->. rewrite closest_point_value.
  destruct (Vec2_eq_dec a b) as [E | _]; [contradiction | ].
  rewrite Ht, clamp_inside by assumption. reflexivity.
Qed.

(** A wall touched at a positive distance: the normal points from the
    closest point to the centre of the disc. *)
Lemma detect_contact_regular (cfg : Config) (a b pos closest : Vec2) (d : R) :
  closest_point_on_segment a b pos = Ok closest ->
  hypot (fst pos - fst closest) (snd pos - snd closest) = d ->
  0 < d -> d < ball_radius cfg ->
  detect_contact cfg a b pos =
  Ok (Some {| contact_point := closest;
              contact_dist := d;
              contact_normal := ((fst pos - fst closest) / d,
                                 (snd pos - snd closest) / d);
              contact_wall_vel := wall_velocity cfg closest |}).
Proof.
  intros Hc Hd Hpos Hlt. unfold detect_contact. rewrite Hc. simpl bind.
  rewrite Hd. destruct (Rlt_dec d (ball_radius cfg)); [ | contradiction].
  unfold wall_normal. destruct (Req_dec_T d 0); [lra | ].
  rewrite !py_div_nonzero by assumption. reflexivity.
Qed.

(** A wall out of reach leaves nothing to resolve. *)
Lemma detect_contact_clear (cfg : Config) (a b pos closest : Vec2) :
  closest_point_on_segment a b pos = Ok closest ->
  ~ hypot (fst pos - fst closest) (snd pos - snd closest) < ball_radius cfg ->
  detect_contact cfg a b pos = Ok None.
Proof.
  intros Hc Hd. unfold detect_contact. rewrite Hc. simpl bind.
  destruct (Rlt_dec _ (ball_radius cfg)); [contradiction | reflexivity].
Qed.

Lemma wall_normal_total (a b : Vec2) (dx dy d : R) :
  exists n, wall_normal a b dx dy d = Ok n.
Proof.
  unfold wall_normal. destruct (Req_dec_T d 0) as [Z | NZ].
  - destruct (Req_dec_T _ 0) as [Z' | NZ']; [eauto | ].
    rewrite !py_div_nonzero by assumption. simpl. eauto.
  - rewrite !py_div_nonzero by assumption. simpl. eauto.
Qed.

Lemma detect_contact_total (cfg : Config) (a b pos : Vec2) :
  exists c, detect_contact cfg a b pos = Ok c.
Proof.
  unfold detect_contact.
  destruct (closest_point_total a b pos) as [closest ->]. simpl bind.
  destruct (Rlt_dec _ (ball_radius cfg)); [ | eauto].
  match goal with
  | |- context [wall_normal ?a ?b ?x ?y ?d] =>
      destruct (wall_normal_total a b x y d) as [[n | ] ->]
  end; simpl; eauto.
Qed.

(** Every contact the detector reports was found below the radius, at the
    closest point of the wall, with the wall velocity taken there. *)
Lemma detect_contact_inv (cfg : Config) (a b pos : Vec2) (c : Contact) :
  detect_contact cfg a b pos = Ok (Some c) ->
  closest_point_on_segment a b pos = Ok (contact_point c) /\
  contact_dist c = hypot (fst pos - fst (contact_point c))
                         (snd pos - snd (contact_point c)) /\
  contact_dist c < ball_radius cfg /\
  wall_normal a b (fst pos - fst (contact_point c))
    (snd pos - snd (contact_point c)) (contact_dist c)
    = Ok (Some (contact_normal c)) /\
  contact_wall_vel c = wall_velocity cfg (contact_point c).
Proof.
  unfold detect_contact.
  destruct (closest_point_total a b pos) as [closest ->]. simpl bind.
  destruct (Rlt_dec _ (ball_radius cfg)) as [L | ]; [ | discriminate].
  match goal with
  | |- context [wall_normal ?a ?b ?x ?y ?d] =>
      destruct (wall_normal_total a b x y d) as [[n | ] Hn]; rewrite Hn
  end; simpl; [ | discriminate].
  intros H. inversion H; subst c; clear H. simpl. auto.
Qed.

Lemma collide_wall_total (cfg : Config) (a b : Vec2) (bl : Ball) :
  exists bl', collide_wall cfg a b bl = Ok bl'.
Proof.
  unfold collide_wall.
  destruct (detect_contact_total cfg a b (ball_pos bl)) as [[c | ] ->];
    simpl; eauto.
Qed.

Lemma resolve_contact_separating (cfg : Config) (bl : Ball) (c : Contact) :
  vdot (vsub (ball_vel bl) (contact_wall_vel c)) (contact_normal c) >= 0 ->
  ball_vel (resolve_contact cfg bl c) =
  vadd (ball_vel bl) (contact_wall_vel c).
Proof.
  intros H. unfold resolve_contact. simpl.
  unfold vsub in H. rewrite reflect_velocity_separating by exact H.
  reflexivity.
Qed.

Lemma floor_contact :
  detect_contact stationary_config floor_a floor_b (ball_pos falling_ball) =
  Ok (Some {| contact_point := (400, 500);
              contact_dist := 10;
              contact_normal := ((400 - 400) / 10, (490 - 500) / 10);
              contact_wall_vel := wall_velocity stationary_config (400, 500) |}).
Proof.
  apply (detect_contact_regular stationary_config floor_a floor_b
           (400, 490) (400, 500) 10).
  - apply closest_point_at with (t := 1 / 2).
    + intros E. inversion E. lra.
    + unfold projection_parameter, vdot, vsub. simpl. lra.
    + lra.
    + unfold vadd, vscale, vsub. simpl. apply pair_eq; lra.
  - simpl. apply hypot_of_square; lra.
  - lra.
  - simpl. lra.
Qed.

(** A head-on hit on a wall at rest whose normal is (0,-1): the normal speed
    is multiplied by [restitution * (2 * wall_friction - 1)]. *)
Lemma reflect_velocity_head_on (cfg : Config) (vy : R) :
  0 < vy ->
  reflect_velocity cfg (0, vy) (0, -1) (0, vy) =
  (0, - (restitution cfg * (2 * wall_friction cfg - 1) * vy)).
Proof.
  intros H.
  rewrite reflect_velocity_approaching by (unfold vdot; simpl; lra).
  unfold restitution_reflection, vsub, vscale, vdot. simpl.
  apply pair_eq; ring.
Qed.

(** C3, evaluated on the code: the hexagon at rest, a flat wall whose normal
    towards the disc is (0,-1), the disc falling straight down with normal
    speed 100.  After the one resolved collision the normal speed is 86.4,
    not [restitution] times 100, which is 90. *)
Theorem head_on_bounce_normal_speed :
  angular_speed stationary_config = 0 /\
  exists c : Contact,
    detect_contact stationary_config floor_a floor_b (ball_pos falling_ball)
      = Ok (Some c) /\
    contact_normal c = (0, -1) /\
    contact_wall_vel c = (0, 0) /\
    ball_vel falling_ball = (0, 100) /\
    vdot (ball_vel falling_ball) (contact_normal c) = -100 /\
    collide_wall stationary_config floor_a floor_b falling_ball =
      Ok (resolve_contact stationary_config falling_ball c) /\
    ball_vel (resolve_contact stationary_config falling_ball c)
      = (0, - (432 / 5)) /\
    vdot (ball_vel (resolve_contact stationary_config falling_ball c))
         (contact_normal c) = 432 / 5 /\
    432 / 5 <> restitution stationary_config * 100.
Proof.
  split; [reflexivity | ].
  eexists. split; [exact floor_contact | ].
  assert (Hn : ((400 - 400) / 10, (490 - 500) / 10) = (0, -1))
    by (apply pair_eq; lra).
  assert (Hw : wall_velocity stationary_config (400, 500) = (0, 0))
    by (unfold wall_velocity; simpl; apply pair_eq; lra).
  assert (Hv : ball_vel (resolve_contact stationary_config falling_ball
             {| contact_point := (400, 500);
                contact_dist := 10;
                contact_normal := ((400 - 400) / 10, (490 - 500) / 10);
                contact_wall_vel := wall_velocity stationary_config (400, 500) |})
           = (0, - (432 / 5))).
  { unfold resolve_contact. cbn [contact_normal contact_wall_vel ball_vel].
    rewrite Hn, Hw.
    rewrite reflect_velocity_approaching by (unfold vdot; simpl; lra).
    unfold restitution_reflection, vsub, vscale, vdot. simpl.
    apply pair_eq; lra. }
  cbn [contact_normal contact_wall_vel].
  repeat split; trivial.
  - rewrite Hn. unfold vdot. simpl. lra.
  - unfold collide_wall. rewrite floor_contact. reflexivity.
  - rewrite Hv, Hn. unfold vdot. simpl. lra.
  - simpl. lra.
Qed.

(** * The geometry provider *)

Lemma hexagon_length (center : Vec2) (r theta : R) :
  length (get_hexagon_vertices center r theta) = 6%nat.
Proof. reflexivity. Qed.

Lemma hexagon_nth (center : Vec2) (r theta : R) (i : nat) :
  (i < 6)%nat ->
  nth_error (get_hexagon_vertices center r theta) i
  = Some (hexagon_vertex center r theta i).
Proof.
  intros H. unfold get_hexagon_vertices.
  do 6 (destruct i as [ | i]; [reflexivity | ]). lia.
Qed.

Lemma hexagon_index (center : Vec2) (r theta : R) (i : nat) :
  (i < 6)%nat ->
  index (get_hexagon_vertices center r theta) i
  = Ok (hexagon_vertex center r theta i).
Proof. intros H. unfold index. now rewrite hexagon_nth. Qed.

Lemma vertex_angle (theta : R) (i : nat) :
  theta + INR i * 2 * PI / INR hex_sides = theta + INR i * (PI / 3).
Proof. unfold hex_sides. simpl INR. lra. Qed.

Lemma hexagon_vertex_polar (center : Vec2) (r theta : R) (i : nat) :
  hexagon_vertex center r theta i =
  (fst center + r * cos (theta + INR i * (PI / 3)),
   snd center + r * sin (theta + INR i * (PI / 3))).
Proof. unfold hexagon_vertex. rewrite vertex_angle. reflexivity. Qed.

Lemma polar_distance (r alpha : R) :
  0 <= r -> hypot (r * cos alpha) (r * sin alpha) = r.
Proof.
  intros Hr. apply hypot_of_square; [assumption | ].
  pose proof (sin2_cos2 alpha) as H. unfold Rsqr in H. nra.
Qed.

Lemma rotate_polar (r alpha phi : R) :
  rotate phi (r * cos alpha, r * sin alpha) =
  (r * cos (alpha + phi), r * sin (alpha + phi)).
Proof.
  unfold rotate. simpl. rewrite cos_plus, sin_plus. apply pair_eq; ring.
Qed.

(** The vertex after the last one is the first one, a full turn later. *)
Lemma full_turn (theta : R) :
  cos (theta + INR 6 * (PI / 3)) = cos theta /\
  sin (theta + INR 6 * (PI / 3)) = sin theta.
Proof.
  replace (theta + INR 6 * (PI / 3)) with (theta + 2 * INR 1 * PI)
    by (simpl; lra).
  split; [apply cos_period | apply sin_period].
Qed.

Lemma next_vertex_rotated (center : Vec2) (r theta : R) (i : nat) :
  (i < 6)%nat ->
  vsub (hexagon_vertex center r theta ((i + 1) mod 6)) center =
  rotate (PI / 3) (vsub (hexagon_vertex center r theta i) center).
Proof.
  intros H. rewrite !hexagon_vertex_polar. unfold vsub. cbn [fst snd].
  replace (fst center + r * cos (theta + INR i * (PI / 3)) - fst center)
    with (r * cos (theta + INR i * (PI / 3))) by ring.
  replace (snd center + r * sin (theta + INR i * (PI / 3)) - snd center)
    with (r * sin (theta + INR i * (PI / 3))) by ring.
  rewrite rotate_polar.
  replace (theta + INR i * (PI / 3) + PI / 3)
    with (theta + INR (i + 1) * (PI / 3))
    by (rewrite plus_INR; simpl INR; ring).
  destruct (Nat.eq_dec i 5) as [-> | N].
  - change ((5 + 1) mod 6)%nat with 0%nat. change (5 + 1)%nat with 6%nat.
    destruct (full_turn theta) as [-> ->].
    simpl INR. rewrite Rmult_0_l, Rplus_0_r. apply pair_eq; ring.
  - rewrite Nat.mod_small by lia. apply pair_eq; ring.
Qed.

(** C5: for a circumradius [r >= 0], [get_hexagon_vertices] returns 6
    vertices; vertex [i] is at angle [theta + i (2 pi / 6)] and at distance
    [r] from the centre, and the next vertex (cyclically) is the image of
    vertex [i] under the rotation by 60 degrees, [pi / 3], about the
    centre. *)
Theorem hexagon_regular (center : Vec2) (r theta : R) :
  0 <= r ->
  length (get_hexagon_vertices center r theta) = 6%nat /\
  forall i : nat, (i < 6)%nat ->
    exists v w : Vec2,
      nth_error (get_hexagon_vertices center r theta) i = Some v /\
      nth_error (get_hexagon_vertices center r theta) ((i + 1) mod 6)
        = Some w /\
      v = vadd center
            (vscale r (cos (theta + INR i * (2 * PI / 6)),
                       sin (theta + INR i * (2 * PI / 6)))) /\
      vnorm (vsub v center) = r /\
      vsub w center = rotate (PI / 3) (vsub v center) /\
      PI / 3 = 60 * (PI / 180).
Proof.
  intros Hr. split; [reflexivity | ]. intros i Hi.
  exists (hexagon_vertex center r theta i),
         (hexagon_vertex center r theta ((i + 1) mod 6)).
  split; [now apply hexagon_nth | ].
  split; [apply hexagon_nth; apply Nat.mod_upper_bound; lia | ].
  split; [ | split; [ | split]].
  - rewrite hexagon_vertex_polar. unfold vadd, vscale. cbn [fst snd].
    replace (2 * PI / 6) with (PI / 3) by lra. reflexivity.
  - rewrite hexagon_vertex_polar. unfold vnorm, vsub. cbn [fst snd].
    replace (fst center + r * cos (theta + INR i * (PI / 3)) - fst center)
      with (r * cos (theta + INR i * (PI / 3))) by ring.
    replace (snd center + r * sin (theta + INR i * (PI / 3)) - snd center)
      with (r * sin (theta + INR i * (PI / 3))) by ring.
    now apply polar_distance.
  - now apply next_vertex_rotated.
  - lra.
Qed.

(** The shipped hexagon at angle 0, circumradius 250 about (400, 300). *)
Lemma hexagon_regular_witness :
  0 <= 250 /\
  (length (get_hexagon_vertices (400, 300) 250 0) = 6%nat /\
   forall i : nat, (i < 6)%nat ->
     exists v w : Vec2,
       nth_error (get_hexagon_vertices (400, 300) 250 0) i = Some v /\
       nth_error (get_hexagon_vertices (400, 300) 250 0) ((i + 1) mod 6)
         = Some w /\
       v = vadd (400, 300)
             (vscale 250 (cos (0 + INR i * (2 * PI / 6)),
                          sin (0 + INR i * (2 * PI / 6)))) /\
       vnorm (vsub v (400, 300)) = 250 /\
       vsub w (400, 300) = rotate (PI / 3) (vsub v (400, 300)) /\
       PI / 3 = 60 * (PI / 180)).
Proof.
  split; [lra | ].
  apply (hexagon_regular (400, 300) 250 0). lra.
Defined.

(** * A separating contact on the rotating wall *)

Lemma bottom_wall_vertices :
  index hexagon_at_rest_angle 1 = Ok (525, 300 + 125 * sqrt 3) /\
  index hexagon_at_rest_angle ((1 + 1) mod length hexagon_at_rest_angle)
    = Ok (275, 300 + 125 * sqrt 3).
Proof.
  unfold hexagon_at_rest_angle. rewrite hexagon_length.
  change ((1 + 1) mod 6)%nat with 2%nat.
  rewrite !hexagon_index by lia. rewrite !hexagon_vertex_polar.
  cbn [default_config hex_center hex_radius fst snd].
  replace (0 + INR 1 * (PI / 3)) with (PI / 3) by (simpl; lra).
  replace (0 + INR 2 * (PI / 3)) with (2 * (PI / 3)) by (simpl; lra).
  rewrite cos_PI3, sin_PI3, cos_2PI3, sin_2PI3.
  split; f_equal; apply pair_eq; lra.
Qed.

Lemma bottom_wall_contact :
  detect_contact default_config
    (525, 300 + 125 * sqrt 3) (275, 300 + 125 * sqrt 3)
    (ball_pos rising_ball) =
  Ok (Some {| contact_point := (400, 300 + 125 * sqrt 3);
              contact_dist := 10;
              contact_normal :=
                ((400 - 400) / 10,
                 (290 + 125 * sqrt 3 - (300 + 125 * sqrt 3)) / 10);
              contact_wall_vel :=
                wall_velocity default_config (400, 300 + 125 * sqrt 3) |}).
Proof.
  apply (detect_contact_regular default_config _ _
           (400, 290 + 125 * sqrt 3) (400, 300 + 125 * sqrt 3) 10).
  - apply closest_point_at with (t := 1 / 2).
    + intros E. inversion E. lra.
    + unfold projection_parameter, vdot, vsub. cbn [fst snd].
      replace (300 + 125 * sqrt 3 - (300 + 125 * sqrt 3)) with 0 by ring.
      lra.
    + lra.
    + unfold vadd, vscale, vsub. cbn [fst snd]. apply pair_eq; lra.
  - cbn [fst snd]. apply hypot_of_square; [lra | ring].
  - lra.
  - simpl. lra.
Qed.

(** C1, evaluated on the code: the shipped constants (angular speed 0.5), the
    hexagon at angle 0, the disc 10 above the middle of the bottom wall and
    moving up at (0, -50).  The wall is touched, the velocity relative to
    the wall satisfies [v_rel . n >= 0] and [reflect_velocity] returns the
    velocity it was given; the loop iteration then adds the wall velocity to
    it, so the disc leaves with (-62.5 sqrt 3, -50) instead of (0, -50). *)
Theorem separating_contact_gains_wall_velocity :
  exists (a b : Vec2) (c : Contact),
    index hexagon_at_rest_angle 1 = Ok a /\
    index hexagon_at_rest_angle ((1 + 1) mod length hexagon_at_rest_angle)
      = Ok b /\
    detect_contact default_config a b (ball_pos rising_ball) = Ok (Some c) /\
    contact_normal c = (0, -1) /\
    contact_wall_vel c = (- (125 / 2) * sqrt 3, 0) /\
    vdot (vsub (ball_vel rising_ball) (contact_wall_vel c)) (contact_normal c)
      >= 0 /\
    reflect_velocity default_config (ball_vel rising_ball) (contact_normal c)
      (vsub (ball_vel rising_ball) (contact_wall_vel c))
      = ball_vel rising_ball /\
    collide_edge default_config hexagon_at_rest_angle 1 rising_ball =
      Ok {| ball_pos := (400, 285 + 125 * sqrt 3);
            ball_vel := (- (125 / 2) * sqrt 3, -50) |} /\
    (- (125 / 2) * sqrt 3, -50) <> ball_vel rising_ball.
Proof.
  destruct bottom_wall_vertices as [Ha Hb].
  assert (Hs : 0 < sqrt 3) by (apply sqrt_lt_R0; lra).
  assert (Hn : ((400 - 400) / 10,
                (290 + 125 * sqrt 3 - (300 + 125 * sqrt 3)) / 10) = (0, -1))
    by (apply pair_eq; lra).
  assert (Hw : wall_velocity default_config (400, 300 + 125 * sqrt 3)
               = (- (125 / 2) * sqrt 3, 0))
    by (unfold wall_velocity; simpl; apply pair_eq; lra).
  assert (Hsep : vdot (vsub (ball_vel rising_ball) (- (125 / 2) * sqrt 3, 0))
                   (0, -1) >= 0)
    by (unfold vdot, vsub; simpl; lra).
  pose proof bottom_wall_contact as Hc. rewrite Hn, Hw in Hc.
  do 3 eexists.
  split; [exact Ha | ]. split; [exact Hb | ].
  split; [exact Hc | ].
  cbn [contact_normal contact_wall_vel].
  split; [reflexivity | ]. split; [reflexivity | ].
  split; [exact Hsep | ].
  split; [now apply reflect_velocity_separating | ].
  split.
  - unfold collide_edge. rewrite Ha, Hb. simpl bind.
    unfold collide_wall. rewrite Hc. simpl bind.
    f_equal. unfold resolve_contact.
    cbn [contact_normal contact_wall_vel contact_dist].
    rewrite reflect_velocity_separating by exact Hsep.
    simpl. f_equal; apply pair_eq; lra.
  - simpl. intros E. inversion E. lra.
Qed.

(** * Contacts and their resolution *)

(** C7: for every contact the detector reports, the wall velocity handed to
    the resolver is [(- w * r.y, w * r.x)], where [w] is the angular speed
    and [r] the offset of the closest point from the centre of the hexagon;
    the resolver reflects the velocity relative to it and adds it back. *)
Theorem wall_velocity_rigid_rotation
  (cfg : Config) (a b : Vec2) (bl : Ball) (c : Contact) :
  detect_contact cfg a b (ball_pos bl) = Ok (Some c) ->
  let r := vsub (contact_point c) (hex_center cfg) in
  let w := (- angular_speed cfg * snd r, angular_speed cfg * fst r) in
  closest_point_on_segment a b (ball_pos bl) = Ok (contact_point c) /\
  contact_wall_vel c = w /\
  ball_vel (resolve_contact cfg bl c) =
  vadd (reflect_velocity cfg (ball_vel bl) (contact_normal c)
          (vsub (ball_vel bl) w)) w.
Proof.
  intros H r w.
  destruct (detect_contact_inv _ _ _ _ _ H) as (Hc & _ & _ & _ & Hw).
  assert (Hw' : contact_wall_vel c = w).
  { rewrite Hw. unfold wall_velocity, w, r, vsub.
    destruct (contact_point c) as [cp_x cp_y]. reflexivity. }
  repeat split; trivial.
  unfold resolve_contact. cbn [ball_vel]. rewrite Hw'. reflexivity.
Qed.

(** The bottom wall of the shipped hexagon, turning at 0.5 rad/s. *)
Lemma wall_velocity_rigid_rotation_witness :
  let c := {| contact_point := (400, 300 + 125 * sqrt 3);
              contact_dist := 10;
              contact_normal :=
                ((400 - 400) / 10,
                 (290 + 125 * sqrt 3 - (300 + 125 * sqrt 3)) / 10);
              contact_wall_vel :=
                wall_velocity default_config (400, 300 + 125 * sqrt 3) |} in
  let r := vsub (contact_point c) (hex_center default_config) in
  let w := (- angular_speed default_config * snd r,
            angular_speed default_config * fst r) in
  closest_point_on_segment (525, 300 + 125 * sqrt 3)
    (275, 300 + 125 * sqrt 3) (ball_pos rising_ball) = Ok (contact_point c) /\
  contact_wall_vel c = w /\
  ball_vel (resolve_contact default_config rising_ball c) =
  vadd (reflect_velocity default_config (ball_vel rising_ball)
          (contact_normal c) (vsub (ball_vel rising_ball) w)) w.
Proof.
  exact (wall_velocity_rigid_rotation default_config
           (525, 300 + 125 * sqrt 3) (275, 300 + 125 * sqrt 3) rising_ball _
           bottom_wall_contact).
Defined.

Lemma wall_normal_regular (a b : Vec2) (dx dy d : R) (n : Vec2) :
  d <> 0 ->
  wall_normal a b dx dy d = Ok (Some n) ->
  n = (dx / d, dy / d).
Proof.
  intros Hd. unfold wall_normal.
  destruct (Req_dec_T d 0); [contradiction | ].
  rewrite !py_div_nonzero by assumption. simpl.
  intros H. now inversion H.
Qed.

(** C10: when a contact is resolved at a distance [dist > 0], the corrected
    position of the disc is at distance exactly [ball_radius] from the
    closest point that was computed before the push. *)
Theorem push_out_leaves_disc_tangent
  (cfg : Config) (a b : Vec2) (bl : Ball) (c : Contact) :
  detect_contact cfg a b (ball_pos bl) = Ok (Some c) ->
  0 < contact_dist c ->
  collide_wall cfg a b bl = Ok (resolve_contact cfg bl c) /\
  vnorm (vsub (ball_pos (resolve_contact cfg bl c)) (contact_point c))
  = ball_radius cfg.
Proof.
  intros H Hpos. split.
  - unfold collide_wall. rewrite H. reflexivity.
  - destruct (detect_contact_inv _ _ _ _ _ H) as (_ & Hd & Hlt & Hn & _).
    apply wall_normal_regular in Hn; [ | lra].
    unfold resolve_contact, vnorm, vsub. cbn [ball_pos fst snd].
    rewrite Hn. cbn [fst snd].
    destruct (ball_pos bl) as [px py], (contact_point c) as [cx cy].
    cbn [fst snd] in *.
    set (d := contact_dist c) in *. set (rad := ball_radius cfg) in *.
    pose proof (hypot_square (px - cx) (py - cy)) as Hsq. rewrite <- Hd in Hsq.
    apply hypot_of_square; [lra | ].
    replace (px + (px - cx) / d * (rad - d) - cx)
      with ((px - cx) * (rad / d)) by (field; lra).
    replace (py + (py - cy) / d * (rad - d) - cy)
      with ((py - cy) * (rad / d)) by (field; lra).
    replace ((px - cx) * (rad / d) * ((px - cx) * (rad / d)) +
             (py - cy) * (rad / d) * ((py - cy) * (rad / d)))
      with (((px - cx) * (px - cx) + (py - cy) * (py - cy))
            * (rad / d) * (rad / d)) by ring.
    rewrite <- Hsq. field. lra.
Qed.

(** The disc 10 above the bottom wall, radius 15: pushed to distance 15. *)
Lemma push_out_leaves_disc_tangent_witness :
  let c := {| contact_point := (400, 300 + 125 * sqrt 3);
              contact_dist := 10;
              contact_normal :=
                ((400 - 400) / 10,
                 (290 + 125 * sqrt 3 - (300 + 125 * sqrt 3)) / 10);
              contact_wall_vel :=
                wall_velocity default_config (400, 300 + 125 * sqrt 3) |} in
  0 < contact_dist c /\
  collide_wall default_config (525, 300 + 125 * sqrt 3)
    (275, 300 + 125 * sqrt 3) rising_ball
  = Ok (resolve_contact default_config rising_ball c) /\
  vnorm (vsub (ball_pos (resolve_contact default_config rising_ball c))
           (contact_point c)) = ball_radius default_config.
Proof.
  intros c.
  assert (Hpos : 0 < contact_dist c) by (simpl; lra).
  split; [exact Hpos | ].
  exact (push_out_leaves_disc_tangent default_config
           (525, 300 + 125 * sqrt 3) (275, 300 + 125 * sqrt 3) rising_ball c
           bottom_wall_contact Hpos).
Defined.

(** * The loop over the walls *)

Lemma index_in_range {A : Type} (l : list A) (i : nat) :
  (i < length l)%nat -> exists a, index l i = Ok a.
Proof.
  intros H. unfold index.
  destruct (nth_error l i) as [a | ] eqn:E; [eauto | ].
  apply nth_error_None in E. lia.
Qed.

Lemma next_index_in_range (n i : nat) : (i < n)%nat -> ((i + 1) mod n < n)%nat.
Proof. intros H. apply Nat.mod_upper_bound. lia. Qed.

Lemma collide_edge_total (cfg : Config) (vertices : list Vec2) (i : nat)
  (bl : Ball) :
  (i < length vertices)%nat ->
  exists bl', collide_edge cfg vertices i bl = Ok bl'.
Proof.
  intros H. unfold collide_edge.
  destruct (index_in_range vertices i H) as [a ->].
  destruct (index_in_range vertices _ (next_index_in_range _ _ H)) as [b ->].
  simpl bind. apply collide_wall_total.
Qed.

Lemma for_each_total (body : nat -> Ball -> result Ball) (n : nat)
  (idxs : list nat) :
  (forall i bl, (i < n)%nat -> exists bl', body i bl = Ok bl') ->
  Forall (fun i => (i < n)%nat) idxs ->
  forall bl, exists bl', for_each body idxs bl = Ok bl'.
Proof.
  intros Hbody Hall. induction Hall as [ | i rest Hi _ IH]; intros bl.
  - simpl. eauto.
  - simpl. destruct (Hbody i bl Hi) as [bl1 ->]. simpl bind. apply IH.
Qed.

Lemma seq_below (n : nat) : Forall (fun i => (i < n)%nat) (seq 0 n).
Proof. apply Forall_forall. intros i Hi. apply in_seq in Hi. lia. Qed.

Lemma collide_all_total (cfg : Config) (vertices : list Vec2) (bl : Ball) :
  exists bl', collide_all cfg vertices bl = Ok bl'.
Proof.
  unfold collide_all.
  apply for_each_total with (n := length vertices).
  - intros i b Hi. now apply collide_edge_total.
  - apply seq_below.
Qed.

Lemma collide_edge_clear (cfg : Config) (vertices : list Vec2) (i : nat)
  (bl : Ball) :
  edge_out_of_reach cfg vertices (ball_pos bl) i ->
  (i < length vertices)%nat ->
  collide_edge cfg vertices i bl = Ok bl.
Proof.
  intros Hout Hi. unfold collide_edge.
  destruct (index_in_range vertices i Hi) as [a Ha].
  destruct (index_in_range vertices _ (next_index_in_range _ _ Hi)) as [b Hb].
  rewrite Ha, Hb. simpl bind. unfold collide_wall.
  destruct (closest_point_total a b (ball_pos bl)) as [closest Hc].
  rewrite (detect_contact_clear cfg a b _ closest Hc); [reflexivity | ].
  exact (Hout a b closest Ha Hb Hc).
Qed.

Lemma for_each_quiet (cfg : Config) (vertices : list Vec2) (bl : Ball)
  (idxs : list nat) :
  Forall (fun i => (i < length vertices)%nat) idxs ->
  quiet_run cfg vertices idxs bl ->
  for_each (collide_edge cfg vertices) idxs bl = Ok bl.
Proof.
  intros Hall. induction Hall as [ | i rest Hi _ IH]; intros Hq.
  - reflexivity.
  - destruct Hq as [Hout Hrest].
    pose proof (collide_edge_clear cfg vertices i bl Hout Hi) as He.
    simpl. rewrite He. simpl bind. apply IH. now apply Hrest.
Qed.

(** With every wall out of reach of one position, the run from that position
    is quiet. *)
Lemma out_of_reach_quiet (cfg : Config) (vertices : list Vec2) (bl : Ball)
  (idxs : list nat) :
  Forall (fun i => (i < length vertices)%nat) idxs ->
  out_of_reach cfg vertices (ball_pos bl) ->
  quiet_run cfg vertices idxs bl.
Proof.
  intros Hall Hout. induction Hall as [ | i rest Hi _ IH].
  - exact I.
  - split; [now apply Hout | ].
    intros bl' He.
    rewrite (collide_edge_clear cfg vertices i bl (Hout i Hi) Hi) in He.
    inversion He; subst bl'. exact IH.
Qed.

(** C8: when no wall is found closer to the disc than its radius at the
    moment it is checked, the loop over the walls returns the disc with the
    position and the velocity it had before. *)
Theorem collision_stage_identity
  (cfg : Config) (vertices : list Vec2) (bl : Ball) :
  quiet_run cfg vertices (seq 0 (length vertices)) bl ->
  collide_all cfg vertices bl = Ok bl.
Proof.
  intros Hq. unfold collide_all.
  apply for_each_quiet; [apply seq_below | exact Hq].
Qed.

(** ** A disc at the centre of the hexagon touches no wall *)

Lemma closest_point_between (a b p c : Vec2) :
  closest_point_on_segment a b p = Ok c ->
  exists t : R, 0 <= t <= 1 /\ c = vadd a (vscale t (vsub b a)).
Proof.
  rewrite closest_point_value. intros H. inversion H as [Hc]. clear H.
  destruct (Vec2_eq_dec a b) as [E | N].
  - exists 0. split; [lra | ].
    destruct a as [x y]. unfold vadd, vscale, vsub. cbn [fst snd].
    apply pair_eq; ring.
  - eexists. split; [apply clamp_range | reflexivity].
Qed.

Lemma hexagon_vertex_offset (center : Vec2) (r theta : R) (i : nat) :
  let u := vsub (hexagon_vertex center r theta i) center in
  hexagon_vertex center r theta i = vadd center u /\
  fst u * fst u + snd u * snd u = r * r.
Proof.
  rewrite hexagon_vertex_polar. unfold vadd, vsub. cbn [fst snd].
  destruct center as [cx cy]. cbn [fst snd]. split.
  - apply pair_eq; ring.
  - pose proof (sin2_cos2 (theta + INR i * (PI / 3))) as H.
    unfold Rsqr in H.
    replace (cx + r * cos (theta + INR i * (PI / 3)) - cx)
      with (r * cos (theta + INR i * (PI / 3))) by ring.
    replace (cy + r * sin (theta + INR i * (PI / 3)) - cy)
      with (r * sin (theta + INR i * (PI / 3))) by ring.
    nra.
Qed.

(** The closest point of a wall to the centre is at least the apothem
    away: [|centre - closest|^2 >= 3/4 r^2]. *)
Lemma hexagon_centre_distance (center : Vec2) (r theta : R) (i : nat)
  (closest : Vec2) :
  (i < 6)%nat ->
  closest_point_on_segment (hexagon_vertex center r theta i)
    (hexagon_vertex center r theta ((i + 1) mod 6)) center = Ok closest ->
  3 / 4 * (r * r) <=
  (fst center - fst closest) * (fst center - fst closest) +
  (snd center - snd closest) * (snd center - snd closest).
Proof.
  intros Hi Hc.
  apply closest_point_between in Hc. destruct Hc as (t & Ht & ->).
  pose proof (next_vertex_rotated center r theta i Hi) as Hrot.
  destruct (hexagon_vertex_offset center r theta i) as [Ha Hnorm].
  destruct (hexagon_vertex_offset center r theta ((i + 1) mod 6)) as [Hb _].
  rewrite Ha, Hb. rewrite Hrot. clear Ha Hb Hrot.
  set (u := vsub (hexagon_vertex center r theta i) center) in *.
  destruct u as [ux uy], center as [cx cy].
  unfold rotate, vadd, vscale, vsub. cbn [fst snd] in *.
  rewrite cos_PI3, sin_PI3.
  assert (Hs : sqrt 3 * sqrt 3 = 3) by (apply sqrt_sqrt; lra).
  match goal with
  | |- _ <= ?e =>
      replace e with
        ((ux * ux + uy * uy)
         * ((1 - t / 2) * (1 - t / 2) + t * t * (sqrt 3 * sqrt 3) / 4))
        by field
  end.
  rewrite Hs, Hnorm.
  assert (Hk : 3 / 4 <= (1 - t / 2) * (1 - t / 2) + t * t * 3 / 4).
  { pose proof (Rle_0_sqr (t - 1 / 2)) as Hq. unfold Rsqr in Hq. lra. }
  assert (Hrr : 0 <= r * r) by nra.
  rewrite (Rmult_comm (r * r)).
  apply Rmult_le_compat_r; assumption.
Qed.

Lemma hexagon_centre_out_of_reach (cfg : Config) (theta : R) :
  ball_radius cfg * ball_radius cfg
    <= 3 / 4 * (hex_radius cfg * hex_radius cfg) ->
  out_of_reach cfg
    (get_hexagon_vertices (hex_center cfg) (hex_radius cfg) theta)
    (hex_center cfg).
Proof.
  intros Hr i Hi a b closest Ha Hb Hc.
  rewrite hexagon_length in Hi, Hb.
  rewrite hexagon_index in Ha by exact Hi.
  rewrite hexagon_index in Hb by (apply Nat.mod_upper_bound; lia).
  inversion Ha; subst a. inversion Hb; subst b.
  apply hexagon_centre_distance in Hc; [ | exact Hi].
  apply Rle_not_lt. apply hypot_lower. lra.
Qed.

(** The disc at rest at the centre of the shipped hexagon. *)
Lemma collision_stage_identity_witness :
  quiet_run default_config hexagon_at_rest_angle
    (seq 0 (length hexagon_at_rest_angle)) centred_ball /\
  collide_all default_config hexagon_at_rest_angle centred_ball
  = Ok centred_ball.
Proof.
  assert (Hq : quiet_run default_config hexagon_at_rest_angle
                 (seq 0 (length hexagon_at_rest_angle)) centred_ball).
  { apply out_of_reach_quiet; [apply seq_below | ].
    apply (hexagon_centre_out_of_reach default_config 0). simpl. lra. }
  split; [exact Hq | ].
  exact (collision_stage_identity default_config hexagon_at_rest_angle
           centred_ball Hq).
Defined.

(** * The tick *)

Lemma collide_edge_hexagon (cfg : Config) (center : Vec2) (r theta : R)
  (i : nat) (bl : Ball) :
  (i < 6)%nat ->
  collide_edge cfg (get_hexagon_vertices center r theta) i bl =
  collide_wall cfg (hexagon_vertex center r theta i)
    (hexagon_vertex center r theta ((i + 1) mod 6)) bl.
Proof.
  intros Hi. unfold collide_edge. rewrite hexagon_length.
  rewrite hexagon_index by exact Hi.
  rewrite hexagon_index by (apply Nat.mod_upper_bound; lia).
  reflexivity.
Qed.

Lemma wall_normal_degenerate (a b : Vec2) (dx dy : R) :
  wall_normal a b dx dy 0 =
  Ok (if Vec2_eq_dec a b then None
      else Some (- (snd b - snd a) / vnorm (vsub b a),
                 (fst b - fst a) / vnorm (vsub b a))).
Proof.
  unfold wall_normal, vnorm, vsub. cbn [fst snd].
  destruct (Req_dec_T 0 0) as [_ | N]; [ | now contradiction N].
  destruct (Req_dec_T _ 0) as [Z | NZ].
  - apply hypot_zero in Z. destruct Z as [Zx Zy].
    destruct (Vec2_eq_dec a b) as [_ | N]; [reflexivity | ].
    exfalso. apply N. destruct a, b. cbn [fst snd] in *.
    apply pair_eq; lra.
  - rewrite !py_div_nonzero by assumption. simpl bind.
    destruct (Vec2_eq_dec a b) as [E | _]; [ | reflexivity].
    exfalso. apply NZ. subst b. unfold hypot.
    replace ((fst a - fst a) * (fst a - fst a) +
             (snd a - snd a) * (snd a - snd a)) with 0 by ring.
    apply sqrt_0.
Qed.

Lemma detect_contact_point (cfg : Config) (a : Vec2) :
  detect_contact cfg a a a = Ok None.
Proof.
  unfold detect_contact. rewrite closest_point_value.
  destruct (Vec2_eq_dec a a) as [_ | N]; [ | now contradiction N].
  simpl bind.
  replace (hypot (fst a - fst a) (snd a - snd a)) with 0.
  - destruct (Rlt_dec 0 (ball_radius cfg)); [ | reflexivity].
    rewrite wall_normal_degenerate.
    destruct (Vec2_eq_dec a a) as [_ | N]; [reflexivity | now contradiction N].
  - unfold hypot.
    replace ((fst a - fst a) * (fst a - fst a) +
             (snd a - snd a) * (snd a - snd a)) with 0 by ring.
    symmetry. apply sqrt_0.
Qed.

Lemma collide_wall_point (cfg : Config) (a v : Vec2) :
  collide_wall cfg a a {| ball_pos := a; ball_vel := v |}
  = Ok {| ball_pos := a; ball_vel := v |}.
Proof.
  unfold collide_wall. cbn [ball_pos].
  rewrite detect_contact_point. reflexivity.
Qed.

(** C9: a tick returns a state for every configuration and every state, and
    so does the handling of any single wall, degenerate or not: the
    projector returns [a] on a zero-length wall, the wall of zero length
    under the centre of the disc is skipped and leaves the disc as it was,
    and at distance 0 from a wall of positive length the normal is the
    normalised perpendicular of the wall. *)
Theorem tick_total (cfg : Config) :
  (forall st : State, exists st' : State, tick cfg st = Ok st') /\
  (forall (a b : Vec2) (bl : Ball),
      exists bl' : Ball, collide_wall cfg a b bl = Ok bl') /\
  (forall a p : Vec2, closest_point_on_segment a a p = Ok a) /\
  (forall a : Vec2, detect_contact cfg a a a = Ok None) /\
  (forall a v : Vec2,
      collide_wall cfg a a {| ball_pos := a; ball_vel := v |}
      = Ok {| ball_pos := a; ball_vel := v |}) /\
  (forall (a b : Vec2) (dx dy : R),
      wall_normal a b dx dy 0 =
      Ok (if Vec2_eq_dec a b then None
          else Some (- (snd b - snd a) / vnorm (vsub b a),
                     (fst b - fst a) / vnorm (vsub b a)))).
Proof.
  split; [ | split; [ | split; [ | split; [ | split]]]].
  - intros st. unfold tick.
    match goal with
    | |- context [collide_all cfg ?vs ?bl] =>
        destruct (collide_all_total cfg vs bl) as [bl' ->]
    end.
    simpl bind. eauto.
  - apply collide_wall_total.
  - intros a p. rewrite closest_point_value.
    destruct (Vec2_eq_dec a a) as [_ | N];
      [reflexivity | now contradiction N].
  - apply detect_contact_point.
  - apply collide_wall_point.
  - apply wall_normal_degenerate.
Qed.

(** ** The tick against its spelled-out order *)

Lemma hexagon_vertex_at (center : Vec2) (r theta : R) (i : nat) :
  hexagon_vertex center r theta i = vertex_at center r theta i.
Proof.
  rewrite hexagon_vertex_polar. unfold vertex_at, vadd, vscale.
  cbn [fst snd]. replace (2 * PI / 6) with (PI / 3) by lra. reflexivity.
Qed.

Lemma resolve_contact_corrected (cfg : Config) (bl : Ball)
  (closest : Vec2) (d : R) (n : Vec2) :
  resolve_contact cfg bl
    {| contact_point := closest;
       contact_dist := d;
       contact_normal := n;
       contact_wall_vel := wall_velocity cfg closest |}
  = corrected cfg bl closest d n.
Proof.
  unfold resolve_contact, corrected, wall_velocity, vadd, vscale, vsub.
  destruct closest as [cp_x cp_y].
  cbn [contact_normal contact_wall_vel contact_dist fst snd].
  f_equal. apply pair_eq; ring.
Qed.

Lemma collide_wall_in_order (cfg : Config) (a b : Vec2) (bl : Ball) :
  collide_wall cfg a b bl = Ok (wall_in_order cfg a b bl).
Proof.
  unfold collide_wall, detect_contact, wall_in_order.
  rewrite closest_point_value. fold (closest_on_wall a b (ball_pos bl)).
  cbn [bind].
  set (c := closest_on_wall a b (ball_pos bl)).
  set (d := hypot (fst (ball_pos bl) - fst c) (snd (ball_pos bl) - snd c)).
  change (vnorm (vsub (ball_pos bl) c)) with d.
  destruct (Rlt_dec d (ball_radius cfg)) as [L | G]; [ | reflexivity].
  destruct (Req_dec_T d 0) as [Z | NZ].
  - rewrite Z. rewrite wall_normal_degenerate.
    destruct (Vec2_eq_dec a b) as [E | N]; cbn [bind]; [reflexivity | ].
    rewrite resolve_contact_corrected. reflexivity.
  - unfold wall_normal. destruct (Req_dec_T d 0) as [Z | _];
      [contradiction | ].
    rewrite !py_div_nonzero by exact NZ. cbn [bind].
    rewrite resolve_contact_corrected. reflexivity.
Qed.

(** C4: one tick is, in this order: the angle advanced by
    [angular_speed * dt]; the vertices taken at the new angle; [gravity * dt]
    added to the y velocity; the position advanced by the new velocity times
    [dt]; then the walls 0-1, 1-2, 2-3, 3-4, 4-5, 5-0 one after the other,
    where a wall found closer than [ball_radius] changes the disc at once
    (velocity through the resolver in the frame of the wall, position
    pushed along the normal by the overlap) and the next wall is checked
    against the disc so changed. *)
Theorem tick_order (cfg : Config) (st : State) :
  tick cfg st = tick_in_order cfg st.
Proof.
  unfold tick, tick_in_order, collide_all.
  rewrite hexagon_length. cbn [seq for_each fst snd].
  rewrite collide_edge_hexagon, collide_wall_in_order by lia. cbn [bind].
  rewrite collide_edge_hexagon, collide_wall_in_order by lia. cbn [bind].
  rewrite collide_edge_hexagon, collide_wall_in_order by lia. cbn [bind].
  rewrite collide_edge_hexagon, collide_wall_in_order by lia. cbn [bind].
  rewrite collide_edge_hexagon, collide_wall_in_order by lia. cbn [bind].
  rewrite collide_edge_hexagon, collide_wall_in_order by lia. cbn [bind].
  change ((0 + 1) mod 6)%nat with 1%nat.
  change ((1 + 1) mod 6)%nat with 2%nat.
  change ((2 + 1) mod 6)%nat with 3%nat.
  change ((3 + 1) mod 6)%nat with 4%nat.
  change ((4 + 1) mod 6)%nat with 5%nat.
  change ((5 + 1) mod 6)%nat with 0%nat.
  rewrite !hexagon_vertex_at. reflexivity.
Qed.

(** * Further properties of the segment projector *)

Lemma clamp_cases (t : R) :
  (t <= 0 /\ clamp 0 1 t = 0) \/
  (0 <= t <= 1 /\ clamp 0 1 t = t) \/
  (1 <= t /\ clamp 0 1 t = 1).
Proof.
  destruct (Rle_dec t 0) as [L | G].
  - left. split; [exact L | now apply clamp_below].
  - destruct (Rle_dec t 1) as [L1 | G1].
    + right. left. split; [lra | apply clamp_inside; lra].
    + right. right. split; [lra | ].
      unfold clamp, Rmin. destruct (Rle_dec 1 t); [ | lra].
      unfold Rmax. destruct (Rle_dec 0 1); lra.
Qed.

Lemma clamp_mirror (t : R) : clamp 0 1 (1 - t) = 1 - clamp 0 1 t.
Proof.
  destruct (clamp_cases t) as [[H ->] | [[H ->] | [H ->]]];
    destruct (clamp_cases (1 - t)) as [[H' ->] | [[H' ->] | [H' ->]]]; lra.
Qed.

Lemma hypot_monotone (x y x' y' : R) :
  x * x + y * y <= x' * x' + y' * y' -> hypot x y <= hypot x' y'.
Proof. intros H. unfold hypot. now apply sqrt_le_1_alt. Qed.

Lemma segment_length_positive (a b : Vec2) :
  a <> b -> 0 < vdot (vsub b a) (vsub b a).
Proof.
  intros N. pose proof (segment_degenerate a b) as [Hd _].
  destruct (Req_dec_T (vdot (vsub b a) (vsub b a)) 0) as [Z | NZ].
  - exfalso. apply N. now apply Hd.
  - assert (H0 : 0 <= vdot (vsub b a) (vsub b a))
      by (unfold vdot; apply Rplus_le_le_0_compat; apply Rle_0_sqr).
    destruct H0 as [H0 | H0]; [exact H0 | ].
    exfalso. apply NZ. now symmetry.
Qed.

(** The squared distance from [q] to the point [s d] of the line, against the
    one to [t d], when [t0] is the projection parameter. *)
Lemma projection_quadratic (qx qy dx dy t0 s t : R) :
  qx * dx + qy * dy = t0 * (dx * dx + dy * dy) ->
  (qx - s * dx) * (qx - s * dx) + (qy - s * dy) * (qy - s * dy)
  - ((qx - t * dx) * (qx - t * dx) + (qy - t * dy) * (qy - t * dy))
  = (dx * dx + dy * dy) * ((s - t) * (s + t - 2 * t0)).
Proof.
  intros H.
  replace ((qx - s * dx) * (qx - s * dx) + (qy - s * dy) * (qy - s * dy)
           - ((qx - t * dx) * (qx - t * dx) + (qy - t * dy) * (qy - t * dy)))
    with ((s - t) * ((s + t) * (dx * dx + dy * dy)
                     - 2 * (qx * dx + qy * dy))) by ring.
  rewrite H. ring.
Qed.

Lemma clamp_minimises (t0 s : R) :
  0 <= s <= 1 -> 0 <= (s - clamp 0 1 t0) * (s + clamp 0 1 t0 - 2 * t0).
Proof.
  intros Hs.
  destruct (clamp_cases t0) as [[H ->] | [[H ->] | [H ->]]].
  - apply Rmult_le_pos; lra.
  - replace ((s - t0) * (s + t0 - 2 * t0)) with ((s - t0) * (s - t0))
      by ring.
    apply Rle_0_sqr.
  - replace ((s - 1) * (s + 1 - 2 * t0)) with ((1 - s) * (2 * t0 - s - 1))
      by ring.
    apply Rmult_le_pos; lra.
Qed.

Lemma projection_parameter_spec (a b p : Vec2) :
  a <> b ->
  vdot (vsub p a) (vsub b a) =
  projection_parameter a b p * vdot (vsub b a) (vsub b a).
Proof.
  intros N. pose proof (segment_length_positive a b N) as HL.
  unfold projection_parameter. field. lra.
Qed.

(** X1: the point returned is on the segment, and no point of the segment
    is closer to [p]. *)
Theorem closest_point_is_closest (a b p c : Vec2) (s : R) :
  closest_point_on_segment a b p = Ok c ->
  0 <= s <= 1 ->
  (exists t : R, 0 <= t <= 1 /\ c = vadd a (vscale t (vsub b a))) /\
  vnorm (vsub p c) <= vnorm (vsub p (vadd a (vscale s (vsub b a)))).
Proof.
  intros Hc Hs. split; [now apply closest_point_between with (p := p) | ].
  rewrite closest_point_value in Hc. inversion Hc as [Hc']. clear Hc.
  unfold vnorm. apply hypot_monotone.
  destruct (Vec2_eq_dec a b) as [E | N].
  - subst b. destruct a as [ax ay], p as [px py].
    unfold vsub, vadd, vscale. cbn [fst snd].
    replace (px - (ax + s * (ax - ax))) with (px - ax) by ring.
    replace (py - (ay + s * (ay - ay))) with (py - ay) by ring.
    lra.
  - pose proof (projection_parameter_spec a b p N) as Ht0.
    pose proof (segment_length_positive a b N) as HL.
    pose proof (clamp_minimises (projection_parameter a b p) s Hs) as Hmin.
    set (t0 := projection_parameter a b p) in *.
    set (t := clamp 0 1 t0) in *.
    destruct a as [ax ay], b as [bx by_], p as [px py].
    unfold vsub, vadd, vscale, vdot in *. cbn [fst snd] in *.
    pose proof (projection_quadratic (px - ax) (py - ay) (bx - ax) (by_ - ay)
                  t0 s t Ht0) as Hq.
    replace (px - (ax + t * (bx - ax))) with (px - ax - t * (bx - ax))
      by ring.
    replace (py - (ay + t * (by_ - ay))) with (py - ay - t * (by_ - ay))
      by ring.
    replace (px - (ax + s * (bx - ax))) with (px - ax - s * (bx - ax))
      by ring.
    replace (py - (ay + s * (by_ - ay))) with (py - ay - s * (by_ - ay))
      by ring.
    assert (Hnn : 0 <= ((bx - ax) * (bx - ax) + (by_ - ay) * (by_ - ay))
                       * ((s - t) * (s + t - 2 * t0)))
      by (apply Rmult_le_pos; lra).
    lra.
Qed.

(** The floor wall, the disc 10 above its middle, against the end [floor_b]
    of the wall. *)
Lemma closest_point_is_closest_witness :
  closest_point_on_segment floor_a floor_b (400, 490) = Ok (400, 500) /\
  0 <= 1 <= 1 /\
  (exists t : R,
      0 <= t <= 1 /\ (400, 500) = vadd floor_a (vscale t (vsub floor_b floor_a)))
  /\
  vnorm (vsub (400, 490) (400, 500)) <=
  vnorm (vsub (400, 490) (vadd floor_a (vscale 1 (vsub floor_b floor_a)))).
Proof.
  assert (Hc : closest_point_on_segment floor_a floor_b (400, 490)
               = Ok (400, 500)).
  { apply closest_point_at with (t := 1 / 2).
    - intros E. inversion E. lra.
    - unfold projection_parameter, vdot, vsub. simpl. lra.
    - lra.
    - unfold vadd, vscale, vsub. simpl. apply pair_eq; lra. }
  assert (Hs : 0 <= 1 <= 1) by lra.
  split; [exact Hc | ]. split; [exact Hs | ].
  exact (closest_point_is_closest floor_a floor_b (400, 490) (400, 500) 1
           Hc Hs).
Defined.

Lemma closest_point_fixes_segment (a b : Vec2) (s : R) :
  0 <= s <= 1 ->
  closest_point_on_segment a b (vadd a (vscale s (vsub b a)))
  = Ok (vadd a (vscale s (vsub b a))).
Proof.
  intros Hs. rewrite closest_point_value.
  destruct (Vec2_eq_dec a b) as [E | N].
  - subst b. f_equal. destruct a as [ax ay].
    unfold vadd, vscale, vsub. cbn [fst snd]. apply pair_eq; ring.
  - pose proof (segment_length_positive a b N) as HL.
    assert (Ht : projection_parameter a b (vadd a (vscale s (vsub b a))) = s).
    { unfold projection_parameter.
      destruct a as [ax ay], b as [bx by_].
      unfold vadd, vscale, vsub, vdot in *. cbn [fst snd] in *.
      field. lra. }
    rewrite Ht, clamp_inside by exact Hs. reflexivity.
Qed.

(** X2: a point of the segment is its own closest point; in particular the
    two ends are, and projecting twice is projecting once. *)
Theorem closest_point_idempotent (a b p c : Vec2) :
  closest_point_on_segment a b p = Ok c ->
  closest_point_on_segment a b c = Ok c /\
  closest_point_on_segment a b a = Ok a /\
  closest_point_on_segment a b b = Ok b.
Proof.
  intros Hc. split; [ | split].
  - apply closest_point_between in Hc. destruct Hc as (t & Ht & ->).
    now apply closest_point_fixes_segment.
  - assert (E : vadd a (vscale 0 (vsub b a)) = a).
    { destruct a, b. unfold vadd, vscale, vsub. cbn [fst snd].
      apply pair_eq; ring. }
    pose proof (closest_point_fixes_segment a b 0) as H.
    rewrite E in H. apply H. lra.
  - assert (E : vadd a (vscale 1 (vsub b a)) = b).
    { destruct a, b. unfold vadd, vscale, vsub. cbn [fst snd].
      apply pair_eq; ring. }
    pose proof (closest_point_fixes_segment a b 1) as H.
    rewrite E in H. apply H. lra.
Qed.

Lemma closest_point_idempotent_witness :
  closest_point_on_segment (0, 0) (10, 0) (5, 5) = Ok (5, 0) /\
  closest_point_on_segment (0, 0) (10, 0) (5, 0) = Ok (5, 0) /\
  closest_point_on_segment (0, 0) (10, 0) (0, 0) = Ok (0, 0) /\
  closest_point_on_segment (0, 0) (10, 0) (10, 0) = Ok (10, 0).
Proof.
  assert (Hc : closest_point_on_segment (0, 0) (10, 0) (5, 5) = Ok (5, 0)).
  { apply closest_point_at with (t := 1 / 2).
    - intros E. inversion E. lra.
    - unfold projection_parameter, vdot, vsub. simpl. lra.
    - lra.
    - unfold vadd, vscale, vsub. simpl. apply pair_eq; lra. }
  split; [exact Hc | ].
  exact (closest_point_idempotent (0, 0) (10, 0) (5, 5) (5, 0) Hc).
Defined.

Lemma closest_point_swap (a b p : Vec2) :
  closest_point_on_segment a b p = closest_point_on_segment b a p.
Proof.
  rewrite !closest_point_value.
  destruct (Vec2_eq_dec a b) as [E | N];
    destruct (Vec2_eq_dec b a) as [E' | N']; try congruence.
  pose proof (segment_length_positive a b N) as HL.
  assert (Ht : projection_parameter b a p = 1 - projection_parameter a b p).
  { unfold projection_parameter.
    destruct a as [ax ay], b as [bx by_], p as [px py].
    unfold vsub, vdot in *. cbn [fst snd] in *. field. repeat split; nra. }
  rewrite Ht, clamp_mirror. f_equal.
  destruct a as [ax ay], b as [bx by_].
  unfold vadd, vscale, vsub. cbn [fst snd]. apply pair_eq; ring.
Qed.

(** X3: the direction in which the wall is given does not matter to the
    projector. *)
Theorem closest_point_symmetric (a b p : Vec2) :
  closest_point_on_segment a b p = closest_point_on_segment b a p.
Proof. apply closest_point_swap. Qed.

(** * Further properties of the geometry provider *)

Lemma vertex_shift (center : Vec2) (r theta : R) (i : nat) :
  hexagon_vertex center r (theta + PI / 3) i =
  hexagon_vertex center r theta (S i).
Proof.
  rewrite !hexagon_vertex_polar.
  replace (theta + PI / 3 + INR i * (PI / 3))
    with (theta + INR (S i) * (PI / 3)) by (rewrite S_INR; ring).
  reflexivity.
Qed.

Lemma vertex_wraps (center : Vec2) (r theta : R) :
  hexagon_vertex center r theta 6 = hexagon_vertex center r theta 0.
Proof.
  rewrite !hexagon_vertex_polar.
  destruct (full_turn theta) as [-> ->].
  replace (theta + INR 0 * (PI / 3)) with theta by (simpl; ring).
  reflexivity.
Qed.

Lemma vertex_full_turn (center : Vec2) (r theta : R) (i : nat) :
  hexagon_vertex center r (theta + 2 * PI) i = hexagon_vertex center r theta i.
Proof.
  rewrite !hexagon_vertex_polar.
  replace (theta + 2 * PI + INR i * (PI / 3))
    with (theta + INR i * (PI / 3) + 2 * INR 1 * PI) by (simpl; ring).
  rewrite cos_period, sin_period. reflexivity.
Qed.

(** X4: turning the hexagon by 60 degrees gives the same vertices, each one
    place earlier in the list (the first one last); turning it by a full
    turn gives the same list. *)
Theorem hexagon_rotation_shifts (center : Vec2) (r theta : R) :
  get_hexagon_vertices center r (theta + PI / 3) =
    skipn 1 (get_hexagon_vertices center r theta) ++
    firstn 1 (get_hexagon_vertices center r theta) /\
  get_hexagon_vertices center r (theta + 2 * PI) =
    get_hexagon_vertices center r theta.
Proof.
  unfold get_hexagon_vertices, hex_sides.
  cbn [seq map skipn firstn app]. split.
  - rewrite !vertex_shift, vertex_wraps. reflexivity.
  - rewrite !vertex_full_turn. reflexivity.
Qed.

Lemma rotated_chord (ux uy r : R) :
  ux * ux + uy * uy = r * r ->
  let w := rotate (PI / 3) (ux, uy) in
  (fst w - ux) * (fst w - ux) + (snd w - uy) * (snd w - uy) = r * r.
Proof.
  intros H. unfold rotate. cbn [fst snd]. rewrite cos_PI3, sin_PI3.
  assert (Hs : sqrt 3 * sqrt 3 = 3) by (apply sqrt_sqrt; lra).
  replace ((1 / 2 * ux - sqrt 3 / 2 * uy - ux)
           * (1 / 2 * ux - sqrt 3 / 2 * uy - ux)
           + (sqrt 3 / 2 * ux + 1 / 2 * uy - uy)
             * (sqrt 3 / 2 * ux + 1 / 2 * uy - uy))
    with ((ux * ux + uy * uy) * (1 / 4 + sqrt 3 * sqrt 3 / 4)) by field.
  rewrite Hs, H. field.
Qed.

Lemma hypot_abs (x y r : R) : x * x + y * y = r * r -> hypot x y = Rabs r.
Proof.
  intros H. unfold hypot. rewrite H. apply sqrt_Rsqr_abs.
Qed.

Lemma hexagon_side (center : Vec2) (r theta : R) (i : nat) :
  (i < 6)%nat ->
  vnorm (vsub (hexagon_vertex center r theta ((i + 1) mod 6))
              (hexagon_vertex center r theta i)) = Rabs r.
Proof.
  intros Hi.
  pose proof (next_vertex_rotated center r theta i Hi) as Hrot.
  destruct (hexagon_vertex_offset center r theta i) as [Ha Hnorm].
  destruct (hexagon_vertex_offset center r theta ((i + 1) mod 6)) as [Hb _].
  rewrite Ha, Hb, Hrot. clear Ha Hb Hrot.
  set (u := vsub (hexagon_vertex center r theta i) center) in *.
  destruct u as [ux uy], center as [cx cy]. cbn [fst snd] in Hnorm.
  pose proof (rotated_chord ux uy r Hnorm) as Hch. cbv zeta in Hch.
  unfold vnorm. apply hypot_abs.
  set (w := rotate (PI / 3) (ux, uy)) in *.
  unfold vsub, vadd. cbn [fst snd].
  replace (cx + fst w - (cx + ux)) with (fst w - ux) by ring.
  replace (cy + snd w - (cy + uy)) with (snd w - uy) by ring.
  exact Hch.
Qed.

(** X5: every wall of the hexagon is as long as the circumradius (its
    absolute value), so for a radius other than 0 no wall has two equal
    ends. *)
Theorem hexagon_side_length (center : Vec2) (r theta : R) (i : nat) :
  (i < 6)%nat ->
  exists a b : Vec2,
    nth_error (get_hexagon_vertices center r theta) i = Some a /\
    nth_error (get_hexagon_vertices center r theta) ((i + 1) mod 6) = Some b /\
    vnorm (vsub b a) = Rabs r /\
    (r <> 0 -> a <> b).
Proof.
  intros Hi.
  exists (hexagon_vertex center r theta i),
         (hexagon_vertex center r theta ((i + 1) mod 6)).
  split; [now apply hexagon_nth | ].
  split; [apply hexagon_nth; apply Nat.mod_upper_bound; lia | ].
  pose proof (hexagon_side center r theta i Hi) as Hs.
  split; [exact Hs | ].
  intros Hr E. rewrite <- E in Hs.
  assert (Hz : vnorm (vsub (hexagon_vertex center r theta i)
                        (hexagon_vertex center r theta i)) = 0).
  { unfold vnorm, vsub, hypot. cbn [fst snd].
    match goal with
    | |- sqrt ?e = 0 => replace e with 0 by ring
    end.
    apply sqrt_0. }
  rewrite Hz in Hs. symmetry in Hs.
  apply Hr. destruct (Req_dec_T r 0) as [Z | NZ]; [exact Z | ].
  exfalso. now apply (Rabs_no_R0 r NZ).
Qed.

(** The bottom wall of the shipped hexagon. *)
Lemma hexagon_side_length_witness :
  (1 < 6)%nat /\
  exists a b : Vec2,
    nth_error (get_hexagon_vertices (400, 300) 250 0) 1 = Some a /\
    nth_error (get_hexagon_vertices (400, 300) 250 0) ((1 + 1) mod 6)
      = Some b /\
    vnorm (vsub b a) = Rabs 250 /\
    (250 <> 0 -> a <> b).
Proof.
  assert (H : (1 < 6)%nat) by lia.
  split; [exact H | ].
  exact (hexagon_side_length (400, 300) 250 0 1 H).
Defined.

(** * Further properties of the collision detector *)

Lemma unit_quotient (x y d : R) :
  d = hypot x y -> d <> 0 -> hypot (x / d) (y / d) = 1.
Proof.
  intros Hd Hnz. apply hypot_of_square; [lra | ].
  pose proof (hypot_square x y) as Hsq. rewrite <- Hd in Hsq.
  replace (x / d * (x / d) + y / d * (y / d))
    with ((x * x + y * y) / (d * d)) by (field; exact Hnz).
  rewrite <- Hsq. field. exact Hnz.
Qed.

Lemma unit_perpendicular (x y d : R) :
  d = hypot x y -> d <> 0 -> hypot (- y / d) (x / d) = 1.
Proof.
  intros Hd Hnz. apply hypot_of_square; [lra | ].
  pose proof (hypot_square x y) as Hsq. rewrite <- Hd in Hsq.
  replace (- y / d * (- y / d) + x / d * (x / d))
    with ((x * x + y * y) / (d * d)) by (field; exact Hnz).
  rewrite <- Hsq. field. exact Hnz.
Qed.

Lemma wall_length_nonzero (a b : Vec2) : a <> b -> vnorm (vsub b a) <> 0.
Proof.
  intros N Z. apply N. unfold vnorm in Z. apply hypot_zero in Z.
  destruct a, b. unfold vsub in Z. cbn [fst snd] in Z.
  destruct Z. apply pair_eq; lra.
Qed.

(** The normal at distance 0, when there is one. *)
Lemma wall_normal_on_wall (a b : Vec2) (dx dy : R) (n : Vec2) :
  wall_normal a b dx dy 0 = Ok (Some n) ->
  a <> b /\
  n = (- (snd b - snd a) / vnorm (vsub b a),
       (fst b - fst a) / vnorm (vsub b a)).
Proof.
  rewrite wall_normal_degenerate.
  destruct (Vec2_eq_dec a b) as [E | N]; [discriminate | ].
  intros H. inversion H. split; [exact N | reflexivity].
Qed.

Lemma contact_normal_is_unit (cfg : Config) (a b pos : Vec2) (c : Contact) :
  detect_contact cfg a b pos = Ok (Some c) ->
  vnorm (contact_normal c) = 1.
Proof.
  intros H.
  destruct (detect_contact_inv _ _ _ _ _ H) as (_ & Hd & _ & Hn & _).
  destruct (Req_dec_T (contact_dist c) 0) as [Z | NZ].
  - rewrite Z in Hn. apply wall_normal_on_wall in Hn.
    destruct Hn as [N ->]. unfold vnorm at 1. cbn [fst snd].
    apply unit_perpendicular; [reflexivity | now apply wall_length_nonzero].
  - apply wall_normal_regular in Hn; [ | exact NZ].
    rewrite Hn. unfold vnorm. cbn [fst snd].
    now apply unit_quotient.
Qed.

Lemma contact_position (cfg : Config) (a b pos : Vec2) (c : Contact) :
  detect_contact cfg a b pos = Ok (Some c) ->
  pos = vadd (contact_point c) (vscale (contact_dist c) (contact_normal c)).
Proof.
  intros H.
  destruct (detect_contact_inv _ _ _ _ _ H) as (_ & Hd & _ & Hn & _).
  destruct pos as [px py], (contact_point c) as [cx cy].
  cbn [fst snd] in *.
  destruct (Req_dec_T (contact_dist c) 0) as [Z | NZ].
  - rewrite Z in *. symmetry in Hd. apply hypot_zero in Hd.
    destruct Hd as [Hx Hy]. unfold vadd, vscale. cbn [fst snd].
    apply pair_eq; lra.
  - apply wall_normal_regular in Hn; [ | exact NZ].
    rewrite Hn. unfold vadd, vscale. cbn [fst snd].
    apply pair_eq; field; exact NZ.
Qed.

(** X6: the normal of every contact the detector reports is a unit
    vector, in the regular case and in the fallback alike. *)
Theorem contact_normal_unit (cfg : Config) (a b pos : Vec2) (c : Contact) :
  detect_contact cfg a b pos = Ok (Some c) ->
  vnorm (contact_normal c) = 1.
Proof. apply contact_normal_is_unit. Qed.

Lemma contact_normal_unit_witness :
  vnorm ((400 - 400) / 10, (490 - 500) / 10) = 1.
Proof.
  exact (contact_normal_unit stationary_config floor_a floor_b
           (ball_pos falling_ball) _ floor_contact).
Defined.

(** X7: for every contact the centre of the disc is the contact point moved
    by the distance along the normal, and the distance is at least 0 and
    below the radius. *)
Theorem contact_decomposition (cfg : Config) (a b pos : Vec2) (c : Contact) :
  detect_contact cfg a b pos = Ok (Some c) ->
  pos = vadd (contact_point c) (vscale (contact_dist c) (contact_normal c)) /\
  0 <= contact_dist c < ball_radius cfg.
Proof.
  intros H. split; [now apply contact_position with (cfg := cfg) (a := a) (b := b) | ].
  destruct (detect_contact_inv _ _ _ _ _ H) as (_ & Hd & Hlt & _).
  split; [ | exact Hlt]. rewrite Hd. apply hypot_nonneg.
Qed.

Lemma contact_decomposition_witness :
  (400, 490) =
    vadd (400, 500) (vscale 10 ((400 - 400) / 10, (490 - 500) / 10)) /\
  0 <= 10 < ball_radius stationary_config.
Proof.
  exact (contact_decomposition stationary_config floor_a floor_b
           (ball_pos falling_ball) _ floor_contact).
Defined.

(** A wall of positive length through the centre of the disc. *)
Lemma detect_contact_on_wall (cfg : Config) (a b pos : Vec2) :
  a <> b ->
  closest_point_on_segment a b pos = Ok pos ->
  0 < ball_radius cfg ->
  detect_contact cfg a b pos =
  Ok (Some {| contact_point := pos;
              contact_dist := 0;
              contact_normal :=
                (- (snd b - snd a) / vnorm (vsub b a),
                 (fst b - fst a) / vnorm (vsub b a));
              contact_wall_vel := wall_velocity cfg pos |}).
Proof.
  intros N Hc Hr. unfold detect_contact. rewrite Hc. cbn [bind].
  replace (hypot (fst pos - fst pos) (snd pos - snd pos)) with 0
    by (symmetry; apply hypot_of_square; [lra | ring]).
  destruct (Rlt_dec 0 (ball_radius cfg)) as [_ | M]; [ | contradiction].
  rewrite wall_normal_degenerate.
  destruct (Vec2_eq_dec a b) as [E | _]; [contradiction | reflexivity].
Qed.

Lemma floor_touch :
  detect_contact default_config floor_a floor_b (ball_pos grounded_ball) =
  Ok (Some {| contact_point := (400, 500);
              contact_dist := 0;
              contact_normal :=
                (- (snd floor_b - snd floor_a) / vnorm (vsub floor_b floor_a),
                 (fst floor_b - fst floor_a) / vnorm (vsub floor_b floor_a));
              contact_wall_vel := wall_velocity default_config (400, 500) |}).
Proof.
  apply (detect_contact_on_wall default_config floor_a floor_b (400, 500)).
  - intros E. inversion E. lra.
  - apply closest_point_at with (t := 1 / 2).
    + intros E. inversion E. lra.
    + unfold projection_parameter, vdot, vsub. simpl. lra.
    + lra.
    + unfold vadd, vscale, vsub. simpl. apply pair_eq; lra.
  - simpl. lra.
Qed.

(** X8: when the centre of the disc lies on the wall (distance 0), the
    contact point is the centre itself and the normal is perpendicular to
    the wall. *)
Theorem contact_on_wall_perpendicular
  (cfg : Config) (a b pos : Vec2) (c : Contact) :
  detect_contact cfg a b pos = Ok (Some c) ->
  contact_dist c = 0 ->
  contact_point c = pos /\
  a <> b /\
  vdot (contact_normal c) (vsub b a) = 0.
Proof.
  intros H Z.
  pose proof (contact_position _ _ _ _ _ H) as Hp.
  destruct (detect_contact_inv _ _ _ _ _ H) as (_ & _ & _ & Hn & _).
  rewrite Z in Hn, Hp. apply wall_normal_on_wall in Hn.
  destruct Hn as [N Hn]. split; [ | split; [exact N | ]].
  - rewrite Hp. destruct (contact_point c) as [cx cy].
    unfold vadd, vscale. cbn [fst snd]. apply pair_eq; ring.
  - rewrite Hn. pose proof (wall_length_nonzero a b N) as HL.
    unfold vdot, vsub in *. cbn [fst snd] in *. field. exact HL.
Qed.

Lemma contact_on_wall_perpendicular_witness :
  let n := (- (snd floor_b - snd floor_a) / vnorm (vsub floor_b floor_a),
            (fst floor_b - fst floor_a) / vnorm (vsub floor_b floor_a)) in
  (400, 500) = ball_pos grounded_ball /\
  floor_a <> floor_b /\
  vdot n (vsub floor_b floor_a) = 0.
Proof.
  exact (contact_on_wall_perpendicular default_config floor_a floor_b
           (ball_pos grounded_ball) _ floor_touch eq_refl).
Defined.

(** X9: the wall velocity at a point is perpendicular to the offset of the
    point from the centre of the hexagon, its length is the absolute
    angular speed times the length of the offset, and it is zero at the
    centre. *)
Theorem wall_velocity_tangential (cfg : Config) (p : Vec2) :
  vdot (wall_velocity cfg p) (vsub p (hex_center cfg)) = 0 /\
  vnorm (wall_velocity cfg p) =
    Rabs (angular_speed cfg) * vnorm (vsub p (hex_center cfg)) /\
  wall_velocity cfg (hex_center cfg) = (0, 0).
Proof.
  destruct p as [px py]. unfold wall_velocity, vdot, vsub, vnorm.
  destruct (hex_center cfg) as [cx cy]. cbn [fst snd].
  split; [ring | split].
  - set (w := angular_speed cfg).
    apply hypot_of_square.
    + apply Rmult_le_pos; [apply Rabs_pos | apply hypot_nonneg].
    + pose proof (hypot_square (px - cx) (py - cy)) as Hsq.
      assert (Hw : Rabs w * Rabs w = w * w).
      { pose proof (Rsqr_abs w) as Ha. unfold Rsqr in Ha. lra. }
      replace (Rabs w * hypot (px - cx) (py - cy)
               * (Rabs w * hypot (px - cx) (py - cy)))
        with ((Rabs w * Rabs w)
              * (hypot (px - cx) (py - cy) * hypot (px - cx) (py - cy)))
        by ring.
      rewrite Hw, Hsq. ring.
  - apply pair_eq; ring.
Qed.

(** * Further properties of the collision resolver *)

Lemma unit_coordinates (n : Vec2) :
  vnorm n = 1 ->
  fst n * fst n + snd n * snd n = 1 /\
  -1 <= fst n <= 1 /\ -1 <= snd n <= 1.
Proof.
  intros H. pose proof (hypot_square (fst n) (snd n)) as Hsq.
  unfold vnorm in H. rewrite H in Hsq.
  destruct n as [nx ny]. cbn [fst snd] in *.
  split; [lra | ]. split; nra.
Qed.

Lemma scaled_square (r k : R) : -1 <= k <= 1 -> r * k * (r * k) <= r * r.
Proof.
  intros Hk.
  assert (Hk2 : k * k <= 1) by nra.
  assert (Hr : 0 <= r * r) by nra.
  replace (r * k * (r * k)) with (r * r * (k * k)) by ring.
  replace (r * r) with (r * r * 1) at 2 by ring.
  apply Rmult_le_compat_l; assumption.
Qed.

Lemma restitution_reflection_square (cfg : Config) (v n : Vec2) :
  fst n * fst n + snd n * snd n = 1 ->
  let r := restitution_reflection cfg v n in
  fst r * fst r + snd r * snd r =
  fst v * fst v + snd v * snd v
  - (1 - restitution cfg * restitution cfg) * (vdot v n * vdot v n).
Proof.
  intros Hn. destruct v as [vx vy], n as [nx ny].
  unfold restitution_reflection, vsub, vscale, vdot. cbn [fst snd] in *.
  set (e := restitution cfg).
  replace ((vx - (1 + e) * (vx * nx + vy * ny) * nx)
           * (vx - (1 + e) * (vx * nx + vy * ny) * nx)
           + (vy - (1 + e) * (vx * nx + vy * ny) * ny)
             * (vy - (1 + e) * (vx * nx + vy * ny) * ny))
    with (vx * vx + vy * vy
          - 2 * (1 + e) * (vx * nx + vy * ny) * (vx * nx + vy * ny)
          + (1 + e) * (1 + e) * (vx * nx + vy * ny) * (vx * nx + vy * ny)
            * (nx * nx + ny * ny)) by ring.
  rewrite Hn. ring.
Qed.

Lemma reflect_velocity_contracts (cfg : Config) (ball_v n v_rel : Vec2) :
  0 <= restitution cfg <= 1 ->
  0 <= wall_friction cfg <= 1 ->
  vnorm n = 1 ->
  vdot v_rel n < 0 ->
  vnorm (reflect_velocity cfg ball_v n v_rel) <= vnorm v_rel.
Proof.
  intros He Hf Hn Hv.
  rewrite reflect_velocity_approaching by exact Hv. cbv zeta.
  destruct (unit_coordinates n Hn) as (Hsq & Hx & Hy).
  pose proof (restitution_reflection_square cfg v_rel n Hsq) as Hr.
  cbv zeta in Hr.
  set (r := restitution_reflection cfg v_rel n) in *.
  set (f := wall_friction cfg) in *. set (e := restitution cfg) in *.
  unfold vnorm. cbn [fst snd]. apply hypot_monotone.
  replace (fst r * fst n + (fst r - fst r * fst n) * f)
    with (fst r * (f + fst n * (1 - f))) by ring.
  replace (snd r * snd n + (snd r - snd r * snd n) * f)
    with (snd r * (f + snd n * (1 - f))) by ring.
  assert (Hkx : -1 <= f + fst n * (1 - f) <= 1) by nra.
  assert (Hky : -1 <= f + snd n * (1 - f) <= 1) by nra.
  pose proof (scaled_square (fst r) _ Hkx) as Hsx.
  pose proof (scaled_square (snd r) _ Hky) as Hsy.
  assert (Hloss : 0 <= (1 - e * e) * (vdot v_rel n * vdot v_rel n)).
  { apply Rmult_le_pos; [nra | apply Rle_0_sqr]. }
  lra.
Qed.

(** X10: a unit normal, a restitution and a friction factor between 0 and
    1: an approaching contact never returns a velocity longer than the
    relative velocity it was given. *)
Theorem reflect_velocity_no_speed_gain
  (cfg : Config) (ball_v n v_rel : Vec2) :
  0 <= restitution cfg <= 1 ->
  0 <= wall_friction cfg <= 1 ->
  vnorm n = 1 ->
  vdot v_rel n < 0 ->
  vnorm (reflect_velocity cfg ball_v n v_rel) <= vnorm v_rel.
Proof. apply reflect_velocity_contracts. Qed.

Lemma reflect_velocity_no_speed_gain_witness :
  vnorm (reflect_velocity default_config (30, 10) (0, -1) (30, 10))
  <= vnorm (30, 10).
Proof.
  apply (reflect_velocity_no_speed_gain default_config (30, 10) (0, -1)
           (30, 10)).
  - simpl. lra.
  - simpl. lra.
  - unfold vnorm. apply hypot_of_square; simpl; lra.
  - unfold vdot. simpl. lra.
Defined.

Lemma stationary_wall_velocity (cfg : Config) (p : Vec2) :
  angular_speed cfg = 0 -> wall_velocity cfg p = (0, 0).
Proof.
  intros H. destruct p as [px py]. unfold wall_velocity. rewrite H.
  apply pair_eq; ring.
Qed.

Lemma resolve_contact_stationary (cfg : Config) (bl : Ball) (c : Contact) :
  contact_wall_vel c = (0, 0) ->
  ball_vel (resolve_contact cfg bl c) =
  reflect_velocity cfg (ball_vel bl) (contact_normal c) (ball_vel bl).
Proof.
  intros Hw. unfold resolve_contact. cbn [ball_vel]. rewrite Hw.
  cbn [fst snd].
  replace (fst (ball_vel bl) - 0, snd (ball_vel bl) - 0) with (ball_vel bl)
    by (destruct (ball_vel bl); cbn [fst snd]; apply pair_eq; ring).
  destruct (reflect_velocity cfg (ball_vel bl) (contact_normal c) (ball_vel bl))
    as [x y]. cbn [fst snd]. apply pair_eq; ring.
Qed.

(** X11: with the hexagon at rest, a contact in which the disc is not
    moving into the wall leaves the velocity of the disc as it was. *)
Theorem stationary_separating_contact
  (cfg : Config) (a b : Vec2) (bl : Ball) (c : Contact) :
  angular_speed cfg = 0 ->
  detect_contact cfg a b (ball_pos bl) = Ok (Some c) ->
  vdot (ball_vel bl) (contact_normal c) >= 0 ->
  contact_wall_vel c = (0, 0) /\
  ball_vel (resolve_contact cfg bl c) = ball_vel bl.
Proof.
  intros Hw H Hsep.
  destruct (detect_contact_inv _ _ _ _ _ H) as (_ & _ & _ & _ & Hv).
  rewrite stationary_wall_velocity in Hv by exact Hw.
  split; [exact Hv | ].
  rewrite resolve_contact_stationary by exact Hv.
  now apply reflect_velocity_separating.
Qed.

Lemma stationary_separating_contact_witness :
  wall_velocity stationary_config (400, 500) = (0, 0) /\
  ball_vel (resolve_contact stationary_config leaving_ball
              {| contact_point := (400, 500);
                 contact_dist := 10;
                 contact_normal := ((400 - 400) / 10, (490 - 500) / 10);
                 contact_wall_vel :=
                   wall_velocity stationary_config (400, 500) |})
  = ball_vel leaving_ball.
Proof.
  apply (stationary_separating_contact stationary_config floor_a floor_b
           leaving_ball _ eq_refl floor_contact).
  unfold vdot. simpl. lra.
Defined.

(** X12: with the hexagon at rest and a restitution and a friction factor
    between 0 and 1, resolving a contact never makes the disc faster. *)
Theorem stationary_contact_no_speed_gain
  (cfg : Config) (a b : Vec2) (bl : Ball) (c : Contact) :
  angular_speed cfg = 0 ->
  0 <= restitution cfg <= 1 ->
  0 <= wall_friction cfg <= 1 ->
  detect_contact cfg a b (ball_pos bl) = Ok (Some c) ->
  vnorm (ball_vel (resolve_contact cfg bl c)) <= vnorm (ball_vel bl).
Proof.
  intros Hw He Hf H.
  pose proof (contact_normal_is_unit _ _ _ _ _ H) as Hn.
  destruct (detect_contact_inv _ _ _ _ _ H) as (_ & _ & _ & _ & Hv).
  rewrite stationary_wall_velocity in Hv by exact Hw.
  rewrite resolve_contact_stationary by exact Hv.
  destruct (Rge_dec (vdot (ball_vel bl) (contact_normal c)) 0) as [G | L].
  - rewrite reflect_velocity_separating by exact G. lra.
  - apply reflect_velocity_contracts; try assumption. lra.
Qed.

Lemma stationary_contact_no_speed_gain_witness :
  vnorm (ball_vel (resolve_contact stationary_config falling_ball
                     {| contact_point := (400, 500);
                        contact_dist := 10;
                        contact_normal := ((400 - 400) / 10, (490 - 500) / 10);
                        contact_wall_vel :=
                          wall_velocity stationary_config (400, 500) |}))
  <= vnorm (ball_vel falling_ball).
Proof.
  apply (stationary_contact_no_speed_gain stationary_config floor_a floor_b
           falling_ball _ eq_refl).
  - simpl. lra.
  - simpl. lra.
  - exact floor_contact.
Defined.

(** X13: with a friction factor of 1 the resolver returns the plain
    restitution reflection [v_rel - (1 + e) (v_rel . n) n] of an approaching
    contact, and for a unit normal the normal speed leaves as [e] times
    the one that came in. *)
Theorem frictionless_restitution (cfg : Config) (ball_v n v_rel : Vec2) :
  wall_friction cfg = 1 ->
  vnorm n = 1 ->
  vdot v_rel n < 0 ->
  reflect_velocity cfg ball_v n v_rel = restitution_reflection cfg v_rel n /\
  vdot (reflect_velocity cfg ball_v n v_rel) n
  = - (restitution cfg * vdot v_rel n).
Proof.
  intros Hf Hn Hv.
  destruct (unit_coordinates n Hn) as (Hsq & _ & _).
  assert (E : reflect_velocity cfg ball_v n v_rel
              = restitution_reflection cfg v_rel n).
  { rewrite reflect_velocity_approaching by exact Hv. cbv zeta.
    rewrite Hf. destruct (restitution_reflection cfg v_rel n) as [rx ry].
    cbn [fst snd]. apply pair_eq; ring. }
  split; [exact E | ]. rewrite E.
  destruct v_rel as [vx vy], n as [nx ny].
  unfold restitution_reflection, vsub, vscale, vdot. cbn [fst snd] in *.
  set (e := restitution cfg).
  replace ((vx - (1 + e) * (vx * nx + vy * ny) * nx) * nx
           + (vy - (1 + e) * (vx * nx + vy * ny) * ny) * ny)
    with ((vx * nx + vy * ny)
          - (1 + e) * (vx * nx + vy * ny) * (nx * nx + ny * ny)) by ring.
  rewrite Hsq. ring.
Qed.

Lemma frictionless_restitution_witness :
  reflect_velocity frictionless_config (0, 100) (0, -1) (0, 100)
    = restitution_reflection frictionless_config (0, 100) (0, -1) /\
  vdot (reflect_velocity frictionless_config (0, 100) (0, -1) (0, 100))
       (0, -1)
  = - (restitution frictionless_config * vdot (0, 100) (0, -1)).
Proof.
  apply (frictionless_restitution frictionless_config (0, 100) (0, -1)
           (0, 100) eq_refl).
  - unfold vnorm. apply hypot_of_square; simpl; lra.
  - unfold vdot. simpl. lra.
Defined.

(** X14: the response is positively homogeneous: scaling both velocities
    by [k >= 0] scales the result by [k]. *)
Theorem reflect_velocity_homogeneous
  (cfg : Config) (k : R) (ball_v n v_rel : Vec2) :
  0 <= k ->
  reflect_velocity cfg (vscale k ball_v) n (vscale k v_rel)
  = vscale k (reflect_velocity cfg ball_v n v_rel).
Proof.
  intros Hk.
  assert (Hdot : vdot (vscale k v_rel) n = k * vdot v_rel n)
    by (unfold vdot, vscale; cbn [fst snd]; ring).
  destruct (Rge_dec (vdot v_rel n) 0) as [G | L].
  - rewrite (reflect_velocity_separating cfg ball_v) by exact G.
    apply reflect_velocity_separating. rewrite Hdot.
    apply Rle_ge. apply Rmult_le_pos; lra.
  - rewrite (reflect_velocity_approaching cfg ball_v) by lra. cbv zeta.
    destruct Hk as [Hk | Hk].
    + rewrite reflect_velocity_approaching by (rewrite Hdot; nra).
      cbv zeta. unfold restitution_reflection. rewrite Hdot.
      unfold vscale, vsub. cbn [fst snd]. apply pair_eq; ring.
    + subst k. rewrite reflect_velocity_separating by (rewrite Hdot; lra).
      unfold vscale. cbn [fst snd]. apply pair_eq; ring.
Qed.

Lemma reflect_velocity_homogeneous_witness :
  0 <= 2 /\
  reflect_velocity default_config (vscale 2 (30, 10)) (0, -1)
    (vscale 2 (30, 10))
  = vscale 2 (reflect_velocity default_config (30, 10) (0, -1) (30, 10)).
Proof.
  assert (H : 0 <= 2) by lra.
  split; [exact H | ].
  exact (reflect_velocity_homogeneous default_config 2 (30, 10) (0, -1)
           (30, 10) H).
Defined.

(** * Further properties of the push out of the wall *)

Lemma scaled_unit (k : R) (n : Vec2) :
  0 <= k -> vnorm n = 1 -> hypot (k * fst n) (k * snd n) = k.
Proof.
  intros Hk Hn. destruct (unit_coordinates n Hn) as (Hsq & _ & _).
  apply hypot_of_square; [exact Hk | ].
  replace (k * fst n * (k * fst n) + k * snd n * (k * snd n))
    with (k * k * (fst n * fst n + snd n * snd n)) by ring.
  rewrite Hsq. ring.
Qed.

(** X15: resolving a contact moves the disc along the normal by the
    overlap [ball_radius - dist], which is positive, whatever its
    velocity; afterwards its centre is at distance [ball_radius] from the
    contact point, also when the contact was found at distance 0. *)
Theorem push_out_by_overlap
  (cfg : Config) (a b : Vec2) (bl : Ball) (c : Contact) :
  detect_contact cfg a b (ball_pos bl) = Ok (Some c) ->
  let bl' := resolve_contact cfg bl c in
  let overlap := ball_radius cfg - contact_dist c in
  0 < overlap /\
  ball_pos bl' = vadd (ball_pos bl) (vscale overlap (contact_normal c)) /\
  vnorm (vsub (ball_pos bl') (ball_pos bl)) = overlap /\
  vnorm (vsub (ball_pos bl') (contact_point c)) = ball_radius cfg.
Proof.
  intros H bl' overlap.
  pose proof (contact_normal_is_unit _ _ _ _ _ H) as Hn.
  pose proof (contact_position _ _ _ _ _ H) as Hp.
  destruct (detect_contact_inv _ _ _ _ _ H) as (_ & Hd & Hlt & _).
  assert (Hd0 : 0 <= contact_dist c) by (rewrite Hd; apply hypot_nonneg).
  assert (Ho : 0 < overlap) by (unfold overlap; lra).
  assert (Hpos : ball_pos bl'
                 = vadd (ball_pos bl) (vscale overlap (contact_normal c))).
  { unfold bl', overlap, resolve_contact, vadd, vscale.
    cbn [ball_pos fst snd]. apply pair_eq; ring. }
  split; [exact Ho | ]. split; [exact Hpos | ]. split.
  - rewrite Hpos. unfold vnorm, vsub, vadd, vscale. cbn [fst snd].
    replace (fst (ball_pos bl) + overlap * fst (contact_normal c)
             - fst (ball_pos bl))
      with (overlap * fst (contact_normal c)) by ring.
    replace (snd (ball_pos bl) + overlap * snd (contact_normal c)
             - snd (ball_pos bl))
      with (overlap * snd (contact_normal c)) by ring.
    apply scaled_unit; [lra | exact Hn].
  - rewrite Hpos, Hp. unfold vnorm, vsub, vadd, vscale. cbn [fst snd].
    replace (fst (contact_point c) + contact_dist c * fst (contact_normal c)
             + overlap * fst (contact_normal c) - fst (contact_point c))
      with (ball_radius cfg * fst (contact_normal c))
      by (unfold overlap; ring).
    replace (snd (contact_point c) + contact_dist c * snd (contact_normal c)
             + overlap * snd (contact_normal c) - snd (contact_point c))
      with (ball_radius cfg * snd (contact_normal c))
      by (unfold overlap; ring).
    apply scaled_unit; [lra | exact Hn].
Qed.

(** The disc with its centre on the floor wall: pushed by the whole
    radius. *)
Lemma push_out_by_overlap_witness :
  let c := {| contact_point := (400, 500);
              contact_dist := 0;
              contact_normal :=
                (- (snd floor_b - snd floor_a) / vnorm (vsub floor_b floor_a),
                 (fst floor_b - fst floor_a) / vnorm (vsub floor_b floor_a));
              contact_wall_vel := wall_velocity default_config (400, 500) |} in
  let bl' := resolve_contact default_config grounded_ball c in
  let overlap := ball_radius default_config - contact_dist c in
  0 < overlap /\
  ball_pos bl' =
    vadd (ball_pos grounded_ball) (vscale overlap (contact_normal c)) /\
  vnorm (vsub (ball_pos bl') (ball_pos grounded_ball)) = overlap /\
  vnorm (vsub (ball_pos bl') (contact_point c)) = ball_radius default_config.
Proof.
  exact (push_out_by_overlap default_config floor_a floor_b grounded_ball _
           floor_touch).
Defined.

Lemma no_radius_out_of_reach (cfg : Config) (vertices : list Vec2)
  (pos : Vec2) :
  ball_radius cfg <= 0 -> out_of_reach cfg vertices pos.
Proof.
  intros Hr i Hi a b closest _ _ _.
  pose proof (hypot_nonneg (fst pos - fst closest) (snd pos - snd closest)).
  lra.
Qed.

(** X16: a disc whose radius is 0 or less touches nothing: the loop over
    the walls returns it unchanged for every list of vertices. *)
Theorem no_radius_no_contact
  (cfg : Config) (vertices : list Vec2) (bl : Ball) :
  ball_radius cfg <= 0 ->
  collide_all cfg vertices bl = Ok bl.
Proof.
  intros Hr. unfold collide_all.
  apply for_each_quiet; [apply seq_below | ].
  apply out_of_reach_quiet; [apply seq_below | ].
  now apply no_radius_out_of_reach.
Qed.

Lemma no_radius_no_contact_witness :
  collide_all point_config hexagon_at_rest_angle rising_ball = Ok rising_ball.
Proof.
  apply (no_radius_no_contact point_config hexagon_at_rest_angle rising_ball).
  simpl. lra.
Defined.

(** * The main loop *)

Lemma tick_angle (cfg : Config) (st : State) :
  exists st' : State,
    tick cfg st = Ok st' /\
    hex_angle st' = hex_angle st + angular_speed cfg * dt cfg.
Proof.
  unfold tick.
  match goal with
  | |- context [collide_all cfg ?vs ?bl] =>
      destruct (collide_all_total cfg vs bl) as [bl' ->]
  end.
  simpl bind. eexists. split; reflexivity.
Qed.

Lemma ticks_angle (cfg : Config) (n : nat) :
  forall st : State,
  exists st' : State,
    ticks cfg n st = Ok st' /\
    hex_angle st' = hex_angle st + INR n * (angular_speed cfg * dt cfg).
Proof.
  induction n as [ | n IH]; intros st.
  - exists st. split; [reflexivity | simpl; ring].
  - destruct (tick_angle cfg st) as (st1 & H1 & A1).
    destruct (IH st1) as (st' & H' & A').
    exists st'. split.
    + simpl. rewrite H1. simpl bind. exact H'.
    + rewrite A', A1, S_INR. ring.
Qed.

(** X17: any number of passes of the physics succeeds, and after [n] of
    them the angle of the hexagon is the one it started with plus
    [n * angular_speed * dt], whatever the disc did. *)
Theorem hexagon_angle_after_ticks (cfg : Config) (n : nat) (st : State) :
  exists st' : State,
    ticks cfg n st = Ok st' /\
    hex_angle st' = hex_angle st + INR n * (angular_speed cfg * dt cfg).
Proof. apply ticks_angle. Qed.

Lemma process_events_quit (events : list event) (running : bool) :
  process_events events running =
  if existsb is_quit events then false else running.
Proof.
  revert running. induction events as [ | e rest IH]; intros running.
  - reflexivity.
  - simpl. rewrite IH. destruct (is_quit e); simpl.
    + now destruct (existsb is_quit rest).
    + reflexivity.
Qed.

Lemma existsb_quit (events : list event) :
  existsb is_quit events = true <-> In QUIT events.
Proof.
  rewrite existsb_exists. split.
  - intros (e & Hin & He). destruct e; [exact Hin | discriminate].
  - intros Hin. exists QUIT. split; [exact Hin | reflexivity].
Qed.

Lemma process_events_running (events : list event) :
  ~ In QUIT events -> process_events events true = true.
Proof.
  intros H. rewrite process_events_quit.
  destruct (existsb is_quit events) eqn:E; [ | reflexivity].
  exfalso. apply H. now apply existsb_quit.
Qed.

Lemma process_events_stopped (events : list event) :
  In QUIT events -> process_events events true = false.
Proof.
  intros H. rewrite process_events_quit.
  apply existsb_quit in H. now rewrite H.
Qed.

Lemma main_loop_until_quit (cfg : Config) (before : list (list event))
  (quitting : list event) (after : list (list event)) :
  Forall (fun events => ~ In QUIT events) before ->
  In QUIT quitting ->
  forall st : State,
  exists (st' : State) (frames : list Frame),
    main_loop cfg (before ++ quitting :: after) st = Ok (st', frames) /\
    ticks cfg (S (length before)) st = Ok st' /\
    length frames = S (length before) /\
    nth_error frames (length before) = Some (draw cfg st').
Proof.
  intros Hbefore Hquit.
  induction Hbefore as [ | events rest Hev _ IH]; intros st.
  - destruct (tick_angle cfg st) as (st1 & H1 & _).
    exists st1, [draw cfg st1]. simpl.
    rewrite (process_events_stopped _ Hquit), H1. simpl bind.
    repeat split; reflexivity.
  - destruct (tick_angle cfg st) as (st1 & H1 & _).
    destruct (IH st1) as (st' & frames & Hm & Ht & Hl & Hlast).
    exists st', (draw cfg st1 :: frames).
    cbn [app main_loop ticks length].
    rewrite (process_events_running _ Hev), H1. cbn [bind].
    rewrite Hm. cbn [bind fst snd]. split; [reflexivity | ].
    split; [exact Ht | ]. split; [now rewrite Hl | ].
    exact Hlast.
Qed.

(** X18: the loop runs until the first pass whose event queue holds a
    [QUIT]; that pass still steps the physics and draws, and nothing
    queued for later passes is looked at.  With [k] quiet passes before it
    the loop does [k + 1] ticks and draws [k + 1] frames, the last one
    showing the final state. *)
Theorem main_loop_stops_at_quit (cfg : Config) (before : list (list event))
  (quitting : list event) (after : list (list event)) (st : State) :
  Forall (fun events => ~ In QUIT events) before ->
  In QUIT quitting ->
  exists (st' : State) (frames : list Frame),
    main_loop cfg (before ++ quitting :: after) st = Ok (st', frames) /\
    ticks cfg (S (length before)) st = Ok st' /\
    length frames = S (length before) /\
    nth_error frames (length before) = Some (draw cfg st').
Proof.
  intros Hb Hq. now apply main_loop_until_quit.
Qed.

Lemma main_loop_stops_at_quit_witness :
  exists (st' : State) (frames : list Frame),
    main_loop default_config
      ([[OtherEvent]; []] ++ [OtherEvent; QUIT; OtherEvent] :: [[]; [QUIT]])
      initial_state = Ok (st', frames) /\
    ticks default_config (S (length [[OtherEvent]; @nil event])) initial_state
      = Ok st' /\
    length frames = S (length [[OtherEvent]; @nil event]) /\
    nth_error frames (length [[OtherEvent]; @nil event])
      = Some (draw default_config st').
Proof.
  apply (main_loop_stops_at_quit default_config [[OtherEvent]; []]
           [OtherEvent; QUIT; OtherEvent] [[]; [QUIT]] initial_state).
  - repeat constructor; simpl; intuition discriminate.
  - simpl. auto.
Defined.

Lemma main_loop_frames (cfg : Config) (queues : list (list event)) :
  forall (st st' : State) (frames : list Frame),
    main_loop cfg queues st = Ok (st', frames) ->
    forall (k : nat) (f : Frame),
      nth_error frames k = Some f ->
      frame_polygon f =
        get_hexagon_vertices (hex_center cfg) (hex_radius cfg)
          (hex_angle st + INR (S k) * (angular_speed cfg * dt cfg)) /\
      frame_radius f = ball_radius cfg.
Proof.
  induction queues as [ | events rest IH]; intros st st' frames Hm k f Hk.
  - simpl in Hm. inversion Hm; subst. destruct k; discriminate.
  - destruct (tick_angle cfg st) as (st1 & H1 & A1).
    cbn [main_loop] in Hm. rewrite H1 in Hm. cbn [bind] in Hm.
    assert (Hhead : frame_polygon (draw cfg st1) =
                    get_hexagon_vertices (hex_center cfg) (hex_radius cfg)
                      (hex_angle st + INR 1 * (angular_speed cfg * dt cfg))
                    /\ frame_radius (draw cfg st1) = ball_radius cfg).
    { unfold draw. cbn [frame_polygon frame_radius]. rewrite A1.
      simpl INR. split; [ | reflexivity]. f_equal. ring. }
    destruct (process_events events true).
    + destruct (main_loop cfg rest st1) as [[st2 frames2] | e] eqn:Hrest;
        [ | discriminate].
      cbn [bind fst snd] in Hm. inversion Hm; subst st' frames. clear Hm.
      destruct k as [ | k].
      * cbn [nth_error] in Hk. inversion Hk; subst f. exact Hhead.
      * cbn [nth_error] in Hk.
        destruct (IH st1 st2 frames2 Hrest k f Hk) as [Hp Hr].
        split; [ | exact Hr]. rewrite Hp, A1. f_equal.
        rewrite (S_INR (S k)). ring.
    + inversion Hm; subst st' frames. clear Hm.
      destruct k as [ | k].
      * cbn [nth_error] in Hk. inversion Hk; subst f. exact Hhead.
      * destruct k; discriminate.
Qed.

(** X19: in any run of the loop, the frame drawn in pass [k] (counted
    from 0) shows the hexagon at the starting angle plus
    [(k + 1) * angular_speed * dt], with six vertices, and the circle with
    the radius of the disc. *)
Theorem frame_shows_rotated_hexagon
  (cfg : Config) (queues : list (list event)) (st st' : State)
  (frames : list Frame) (k : nat) (f : Frame) :
  main_loop cfg queues st = Ok (st', frames) ->
  nth_error frames k = Some f ->
  frame_polygon f =
    get_hexagon_vertices (hex_center cfg) (hex_radius cfg)
      (hex_angle st + INR (S k) * (angular_speed cfg * dt cfg)) /\
  length (frame_polygon f) = 6%nat /\
  frame_radius f = ball_radius cfg.
Proof.
  intros Hm Hk.
  destruct (main_loop_frames cfg queues st st' frames Hm k f Hk) as [Hp Hr].
  split; [exact Hp | ]. split; [ | exact Hr].
  rewrite Hp. apply hexagon_length.
Qed.

(** One pass, ended by a [QUIT], from the initial state of the script. *)
Lemma frame_shows_rotated_hexagon_witness :
  exists (st' : State) (frames : list Frame) (f : Frame),
    main_loop default_config [[QUIT]] initial_state = Ok (st', frames) /\
    nth_error frames 0 = Some f /\
    frame_polygon f =
      get_hexagon_vertices (hex_center default_config)
        (hex_radius default_config)
        (hex_angle initial_state
         + INR 1 * (angular_speed default_config * dt default_config)) /\
    length (frame_polygon f) = 6%nat /\
    frame_radius f = ball_radius default_config.
Proof.
  destruct (main_loop_until_quit default_config [] [QUIT] []
              (Forall_nil _) (or_introl eq_refl) initial_state)
    as (st' & frames & Hm & _ & _ & Hk).
  exists st', frames, (draw default_config st').
  split; [exact Hm | ]. split; [exact Hk | ].
  exact (frame_shows_rotated_hexagon default_config [[QUIT]] initial_state
           st' frames 0 (draw default_config st') Hm Hk).
Defined.

Lemma py_int_truncates (x : R) :
  Rabs (IZR (py_int x) - x) < 1 /\
  Rabs (IZR (py_int x)) <= Rabs x /\
  0 <= IZR (py_int x) * x.
Proof.
  unfold py_int. destruct (Rle_dec 0 x) as [P | N].
  - pose proof (Zfloor_bound x) as [Hl Hu].
    assert (H0 : 0 <= IZR (Zfloor x)).
    { apply (IZR_le 0). apply Zfloor_lub. exact P. }
    split; [ | split].
    + apply Rabs_def1; lra.
    + rewrite !Rabs_right by lra. exact Hl.
    + apply Rmult_le_pos; assumption.
  - pose proof (Zceil_bound x) as [Hl Hu].
    assert (H0 : IZR (Zceil x) <= 0).
    { apply (IZR_le _ 0).
      assert (Hlt : (Zceil x < 1)%Z) by (apply lt_IZR; lra).
      lia. }
    split; [ | split].
    + apply Rabs_def1; lra.
    + rewrite (Rabs_left x) by lra.
      destruct H0 as [H0 | H0].
      * rewrite Rabs_left by exact H0. lra.
      * rewrite H0, Rabs_R0. lra.
    + replace (IZR (Zceil x) * x) with ((- IZR (Zceil x)) * (- x)) by ring.
      apply Rmult_le_pos; lra.
Qed.

(** X20: the circle is drawn at the position of the disc with both
    coordinates rounded towards zero: less than one pixel off, never
    farther from 0 than the position, never on the other side of 0. *)
Theorem drawn_centre_truncated (cfg : Config) (st : State) :
  let f := draw cfg st in
  let pos := ball_pos (ball st) in
  (Rabs (IZR (fst (frame_circle f)) - fst pos) < 1 /\
   Rabs (IZR (fst (frame_circle f))) <= Rabs (fst pos) /\
   0 <= IZR (fst (frame_circle f)) * fst pos) /\
  (Rabs (IZR (snd (frame_circle f)) - snd pos) < 1 /\
   Rabs (IZR (snd (frame_circle f))) <= Rabs (snd pos) /\
   0 <= IZR (snd (frame_circle f)) * snd pos).
Proof.
  unfold draw. cbn [frame_circle fst snd].
  split; apply py_int_truncates.
Qed.

Lemma collide_all_clear (cfg : Config) (vertices : list Vec2) (bl : Ball) :
  out_of_reach cfg vertices (ball_pos bl) ->
  collide_all cfg vertices bl = Ok bl.
Proof.
  intros H. unfold collide_all.
  apply for_each_quiet; [apply seq_below | ].
  apply out_of_reach_quiet; [apply seq_below | exact H].
Qed.

(** X21: a tick in which the disc, at the position gravity and its
    velocity take it to, is out of reach of every wall, is a plain
    semi-implicit Euler step: the x velocity is kept, the y velocity gains
    [gravity * dt], and the position moves by the new velocity times
    [dt]. *)
Theorem free_flight_tick (cfg : Config) (st : State) :
  let angle1 := hex_angle st + angular_speed cfg * dt cfg in
  let v0 := ball_vel (ball st) in
  let p0 := ball_pos (ball st) in
  let v1 := (fst v0, snd v0 + gravity cfg * dt cfg) in
  let p1 := (fst p0 + fst v1 * dt cfg, snd p0 + snd v1 * dt cfg) in
  out_of_reach cfg
    (get_hexagon_vertices (hex_center cfg) (hex_radius cfg) angle1) p1 ->
  tick cfg st =
  Ok {| hex_angle := angle1; ball := {| ball_pos := p1; ball_vel := v1 |} |}.
Proof.
  intros angle1 v0 p0 v1 p1 Hout.
  unfold tick. cbn [fst snd].
  fold v0 p0. fold angle1.
  change (fst v0, snd v0 + gravity cfg * dt cfg) with v1.
  change (fst p0 + fst v0 * dt cfg,
          snd p0 + (snd v0 + gravity cfg * dt cfg) * dt cfg) with p1.
  rewrite collide_all_clear by exact Hout. reflexivity.
Qed.

(** The disc at the centre of the shipped hexagon, with the velocity that
    one tick of gravity brings to 0. *)
Lemma free_flight_tick_witness :
  let angle1 := hex_angle hovering_state
                + angular_speed default_config * dt default_config in
  let v0 := ball_vel (ball hovering_state) in
  let p0 := ball_pos (ball hovering_state) in
  let v1 := (fst v0, snd v0 + gravity default_config * dt default_config) in
  let p1 := (fst p0 + fst v1 * dt default_config,
             snd p0 + snd v1 * dt default_config) in
  tick default_config hovering_state =
  Ok {| hex_angle := angle1; ball := {| ball_pos := p1; ball_vel := v1 |} |}.
Proof.
  intros angle1 v0 p0 v1 p1.
  apply (free_flight_tick default_config hovering_state).
  replace (fst (ball_pos (ball hovering_state))
           + fst (fst (ball_vel (ball hovering_state)),
                  snd (ball_vel (ball hovering_state))
                  + gravity default_config * dt default_config)
             * dt default_config,
           snd (ball_pos (ball hovering_state))
           + snd (fst (ball_vel (ball hovering_state)),
                  snd (ball_vel (ball hovering_state))
                  + gravity default_config * dt default_config)
             * dt default_config)
    with (hex_center default_config)
    by (simpl; apply pair_eq; lra).
  apply hexagon_centre_out_of_reach. simpl. lra.
Defined.

Lemma hypot_triangle (x y x' y' : R) :
  hypot (x + x') (y + y') <= hypot x y + hypot x' y'.
Proof.
  pose proof (hypot_nonneg x y) as HA. pose proof (hypot_nonneg x' y') as HB.
  pose proof (hypot_square x y) as HA2.
  pose proof (hypot_square x' y') as HB2.
  set (A := hypot x y) in *. set (B := hypot x' y') in *.
  assert (Hdot : x * x' + y * y' <= A * B).
  { destruct (Rle_dec (x * x' + y * y') (A * B)) as [L | G]; [exact L | ].
    exfalso. apply Rnot_le_lt in G.
    assert (HAB : 0 <= A * B) by (apply Rmult_le_pos; assumption).
    assert (Hlt : A * B * (A * B) < (x * x' + y * y') * (x * x' + y * y'))
      by (apply Rmult_le_0_lt_compat; assumption).
    assert (Hcs : (x * x' + y * y') * (x * x' + y * y')
                  + (x * y' - y * x') * (x * y' - y * x')
                  = A * A * (B * B)) by (rewrite HA2, HB2; ring).
    pose proof (Rle_0_sqr (x * y' - y * x')) as Hsq. unfold Rsqr in Hsq.
    replace (A * B * (A * B)) with (A * A * (B * B)) in Hlt by ring.
    lra. }
  rewrite <- (sqrt_square (A + B)) by lra.
  unfold hypot. apply sqrt_le_1_alt.
  replace ((x + x') * (x + x') + (y + y') * (y + y'))
    with (x * x + y * y + (x' * x' + y' * y') + 2 * (x * x' + y * y'))
    by ring.
  rewrite <- HA2, <- HB2. nra.
Qed.

(** X22: [vector_length] is a norm: its square is the sum of the squares
    of the coordinates, it is never negative and is 0 only for the zero
    vector, it scales with the absolute value of a factor, and the length
    of a sum is at most the sum of the lengths. *)
Theorem vector_length_norm (u v : Vec2) (k : R) :
  vector_length v * vector_length v = fst v * fst v + snd v * snd v /\
  0 <= vector_length v /\
  (vector_length v = 0 <-> v = (0, 0)) /\
  vector_length (vscale k v) = Rabs k * vector_length v /\
  vector_length (vadd u v) <= vector_length u + vector_length v.
Proof.
  destruct u as [x' y'], v as [x y].
  unfold vector_length, vscale, vadd. cbn [fst snd].
  fold (hypot x y). fold (hypot x' y'). fold (hypot (k * x) (k * y)).
  fold (hypot (x' + x) (y' + y)).
  split; [apply hypot_square | ]. split; [apply hypot_nonneg | ].
  split; [ | split].
  - split.
    + intros H. apply hypot_zero in H. destruct H. now apply pair_eq.
    + intros H. inversion H. apply hypot_of_square; lra.
  - apply hypot_of_square.
    + apply Rmult_le_pos; [apply Rabs_pos | apply hypot_nonneg].
    + pose proof (hypot_square x y) as Hsq.
      assert (Hk : Rabs k * Rabs k = k * k).
      { pose proof (Rsqr_abs k) as Ha. unfold Rsqr in Ha. lra. }
      replace (Rabs k * hypot x y * (Rabs k * hypot x y))
        with (Rabs k * Rabs k * (hypot x y * hypot x y)) by ring.
      rewrite Hk, Hsq. ring.
  - apply hypot_triangle.
Qed.

(** * The direction of a wall *)

Lemma wall_normal_swap (a b : Vec2) (dx dy d : R) :
  d <> 0 -> wall_normal a b dx dy d = wall_normal b a dx dy d.
Proof.
  intros Hd. unfold wall_normal.
  destruct (Req_dec_T d 0); [contradiction | reflexivity].
Qed.

Lemma detect_contact_swap (cfg : Config) (a b pos c : Vec2) :
  closest_point_on_segment a b pos = Ok c ->
  c <> pos ->
  detect_contact cfg a b pos = detect_contact cfg b a pos.
Proof.
  intros Hc Hne. unfold detect_contact.
  rewrite <- (closest_point_swap a b pos), Hc. cbn [bind].
  destruct (Rlt_dec _ (ball_radius cfg)); [ | reflexivity].
  rewrite wall_normal_swap; [reflexivity | ].
  intros Z. apply hypot_zero in Z. destruct Z as [Zx Zy].
  apply Hne. destruct c, pos. cbn [fst snd] in *. apply pair_eq; lra.
Qed.

(** X23: as long as the centre of the disc is not on the wall itself, a
    wall given from [b] to [a] is handled exactly as the wall from [a] to
    [b]. *)
Theorem collide_wall_orientation
  (cfg : Config) (a b : Vec2) (bl : Ball) (c : Vec2) :
  closest_point_on_segment a b (ball_pos bl) = Ok c ->
  c <> ball_pos bl ->
  collide_wall cfg a b bl = collide_wall cfg b a bl.
Proof.
  intros Hc Hne. unfold collide_wall.
  now rewrite (detect_contact_swap cfg a b (ball_pos bl) c Hc Hne).
Qed.

Lemma collide_wall_orientation_witness :
  collide_wall stationary_config floor_a floor_b falling_ball
  = collide_wall stationary_config floor_b floor_a falling_ball.
Proof.
  apply (collide_wall_orientation stationary_config floor_a floor_b
           falling_ball (400, 500)).
  - apply closest_point_at with (t := 1 / 2).
    + intros E. inversion E. lra.
    + unfold projection_parameter, vdot, vsub. simpl. lra.
    + lra.
    + unfold vadd, vscale, vsub. simpl. apply pair_eq; lra.
  - simpl. intros E. inversion E. lra.
Defined.

(** Twice the area of the triangle centre, vertex [i], next vertex. *)
Lemma hexagon_edge_cross (center : Vec2) (r theta : R) (i : nat) :
  (i < 6)%nat ->
  let a := hexagon_vertex center r theta i in
  let b := hexagon_vertex center r theta ((i + 1) mod 6) in
  - (snd b - snd a) * (fst center - fst a)
  + (fst b - fst a) * (snd center - snd a) = sqrt 3 / 2 * (r * r).
Proof.
  intros Hi a b. unfold a, b.
  pose proof (next_vertex_rotated center r theta i Hi) as Hrot.
  destruct (hexagon_vertex_offset center r theta i) as [Ha Hnorm].
  destruct (hexagon_vertex_offset center r theta ((i + 1) mod 6)) as [Hb _].
  rewrite Ha, Hb, Hrot. clear Ha Hb Hrot.
  set (u := vsub (hexagon_vertex center r theta i) center) in *.
  destruct u as [ux uy], center as [cx cy].
  unfold rotate, vadd. cbn [fst snd] in *.
  rewrite cos_PI3, sin_PI3. rewrite <- Hnorm. field.
Qed.

(** X24: when the centre of the disc lies on a wall of the hexagon, the
    fallback normal points to the inside: its product with the direction
    from the disc to the centre of the hexagon is the apothem,
    [|r| sqrt 3 / 2]. *)
Theorem fallback_normal_points_inward
  (cfg : Config) (center : Vec2) (r theta : R) (i : nat) (pos : Vec2)
  (c : Contact) :
  (i < 6)%nat ->
  detect_contact cfg (hexagon_vertex center r theta i)
    (hexagon_vertex center r theta ((i + 1) mod 6)) pos = Ok (Some c) ->
  contact_dist c = 0 ->
  vdot (contact_normal c) (vsub center pos) = Rabs r * (sqrt 3 / 2).
Proof.
  intros Hi H Z.
  pose proof (hexagon_edge_cross center r theta i Hi) as Hx.
  pose proof (hexagon_side center r theta i Hi) as Hside.
  cbv zeta in Hx.
  set (a := hexagon_vertex center r theta i) in *.
  set (b := hexagon_vertex center r theta ((i + 1) mod 6)) in *.
  pose proof (contact_position _ _ _ _ _ H) as Hp.
  destruct (detect_contact_inv _ _ _ _ _ H) as (Hc & _ & _ & Hn & _).
  rewrite Z in Hn, Hp. apply wall_normal_on_wall in Hn.
  destruct Hn as [N Hn].
  apply closest_point_between in Hc. destruct Hc as (t & _ & Hc).
  assert (Hpos : pos = vadd a (vscale t (vsub b a))).
  { rewrite Hp, Hc. destruct a, b. unfold vadd, vscale, vsub.
    cbn [fst snd]. apply pair_eq; ring. }
  pose proof (wall_length_nonzero a b N) as HL.
  rewrite Hside in HL.
  assert (Hrr : r * r = Rabs r * Rabs r).
  { pose proof (Rsqr_abs r) as Ha. unfold Rsqr in Ha. exact Ha. }
  rewrite Hn, Hside, Hpos. clear Hn Hp Hc Hpos H.
  destruct a as [ax ay], b as [bx by_], center as [cx cy].
  unfold vdot, vsub, vadd, vscale. cbn [fst snd] in *.
  replace (- (by_ - ay) / Rabs r * (cx - (ax + t * (bx - ax)))
           + (bx - ax) / Rabs r * (cy - (ay + t * (by_ - ay))))
    with ((- (by_ - ay) * (cx - ax) + (bx - ax) * (cy - ay)) / Rabs r)
    by (field; exact HL).
  rewrite Hx, Hrr. field. exact HL.
Qed.

(** The centre of the disc on the middle of the bottom wall of the
    shipped hexagon. *)
Lemma bottom_wall_touch :
  detect_contact default_config
    (hexagon_vertex (400, 300) 250 0 1)
    (hexagon_vertex (400, 300) 250 0 ((1 + 1) mod 6))
    (400, 300 + 125 * sqrt 3) =
  Ok (Some {| contact_point := (400, 300 + 125 * sqrt 3);
              contact_dist := 0;
              contact_normal :=
                (- (snd (hexagon_vertex (400, 300) 250 0 ((1 + 1) mod 6))
                    - snd (hexagon_vertex (400, 300) 250 0 1))
                 / vnorm (vsub (hexagon_vertex (400, 300) 250 0 ((1 + 1) mod 6))
                            (hexagon_vertex (400, 300) 250 0 1)),
                 (fst (hexagon_vertex (400, 300) 250 0 ((1 + 1) mod 6))
                  - fst (hexagon_vertex (400, 300) 250 0 1))
                 / vnorm (vsub (hexagon_vertex (400, 300) 250 0 ((1 + 1) mod 6))
                            (hexagon_vertex (400, 300) 250 0 1)));
              contact_wall_vel :=
                wall_velocity default_config (400, 300 + 125 * sqrt 3) |}).
Proof.
  assert (Ha : hexagon_vertex (400, 300) 250 0 1
               = (525, 300 + 125 * sqrt 3)).
  { rewrite hexagon_vertex_polar. cbn [fst snd].
    replace (0 + INR 1 * (PI / 3)) with (PI / 3) by (simpl; lra).
    rewrite cos_PI3, sin_PI3. apply pair_eq; lra. }
  assert (Hb : hexagon_vertex (400, 300) 250 0 ((1 + 1) mod 6)
               = (275, 300 + 125 * sqrt 3)).
  { change ((1 + 1) mod 6)%nat with 2%nat.
    rewrite hexagon_vertex_polar. cbn [fst snd].
    replace (0 + INR 2 * (PI / 3)) with (2 * (PI / 3)) by (simpl; lra).
    rewrite cos_2PI3, sin_2PI3. apply pair_eq; lra. }
  apply detect_contact_on_wall.
  - rewrite Ha, Hb. intros E. inversion E. lra.
  - rewrite Ha, Hb. apply closest_point_at with (t := 1 / 2).
    + intros E. inversion E. lra.
    + unfold projection_parameter, vdot, vsub. cbn [fst snd].
      replace (300 + 125 * sqrt 3 - (300 + 125 * sqrt 3)) with 0 by ring.
      lra.
    + lra.
    + unfold vadd, vscale, vsub. cbn [fst snd]. apply pair_eq; lra.
  - simpl. lra.
Qed.

Lemma fallback_normal_points_inward_witness :
  vdot
    (- (snd (hexagon_vertex (400, 300) 250 0 ((1 + 1) mod 6))
        - snd (hexagon_vertex (400, 300) 250 0 1))
     / vnorm (vsub (hexagon_vertex (400, 300) 250 0 ((1 + 1) mod 6))
                (hexagon_vertex (400, 300) 250 0 1)),
     (fst (hexagon_vertex (400, 300) 250 0 ((1 + 1) mod 6))
      - fst (hexagon_vertex (400, 300) 250 0 1))
     / vnorm (vsub (hexagon_vertex (400, 300) 250 0 ((1 + 1) mod 6))
                (hexagon_vertex (400, 300) 250 0 1)))
    (vsub (400, 300) (400, 300 + 125 * sqrt 3))
  = Rabs 250 * (sqrt 3 / 2).
Proof.
  assert (Hi : (1 < 6)%nat) by lia.
  exact (fallback_normal_points_inward default_config (400, 300) 250 0 1
           (400, 300 + 125 * sqrt 3) _ Hi bottom_wall_touch eq_refl).
Defined.
